(** * qr_trees: tree iLQR and the hindsight solver front end

    A shallow embedding of [src/ilqr/ilqr.cc] (the [iLQRTree] methods),
    of the setters and accessors of [src/ilqr/ilqr_node.hh], of the
    constructor of [src/templated/iLQR_hindsight.hh] and of [to_string] of
    [src/experiments/single_obs_diffdrive.hh].

    Conventions.
    - A C++ [double] is an exact rational ([Qc], canonical fractions, so
      that equality is Leibniz equality and [ring] applies).  Rounding is
      not modelled; every concrete input below is made of numbers on which
      double arithmetic is exact or far from a comparison threshold.
    - An [Eigen::MatrixXd] carries its run-time shape.  An operation whose
      Eigen precondition is violated (shapes that do not conform, a block
      out of range) raises [eigen_assert_failed].
    - A C++ exception is a value [Raise e] of the [result] monad; so is
      an undefined behaviour ([singular_matrix], [null_pointer],
      [out_of_range]). *)

From Stdlib Require Import QArith Qcanon Qcabs ZArith List Lia Lqa Bool Arith.
From Stdlib Require String.
Import ListNotations.

Local Open Scope Qc_scope.
Local Open Scope list_scope.

(** * Part I.  The sources *)

(** ** Scalars *)

Abbreviation double := Qc.

Definition dbl (q : QArith_base.Q) : double := Q2Qc q.

Definition Qcleb (x y : double) : bool := Qle_bool x y.
Definition Qceqb (x y : double) : bool := Qeq_bool x y.

(** ** Exceptions and the result monad *)

Inductive exception : Type :=
| IS_EQUAL_failed
| IS_GREATER_failed
| IS_ALMOST_EQUAL_failed
| eigen_assert_failed
| singular_matrix
| null_pointer
| out_of_range.

Inductive result (T : Type) : Type :=
| Ok (x : T)
| Raise (e : exception).

Arguments Ok {T} x.
Arguments Raise {T} e.

Definition bind {T U : Type} (c : result T) (f : T -> result U) : result U :=
  match c with
  | Ok x => f x
  | Raise e => Raise e
  end.

Declare Scope result_scope.
Delimit Scope result_scope with result.
Notation "x <- c ;; k" := (bind c (fun x => k))
  (at level 61, c at next level, right associativity) : result_scope.
Notation "c ;;; k" := (bind c (fun _ => k))
  (at level 61, right associativity) : result_scope.
Local Open Scope result_scope.

Definition succeeds {T : Type} (c : result T) : bool :=
  match c with Ok _ => true | Raise _ => false end.

(** ** The assertion macros of utils/debug_utils.hh *)

(** Modelled from the spec: [utils/debug_utils.hh] is not among the
    sources.  [IS_EQUAL(a, b)] raises unless [a == b]. *)
Definition IS_EQUAL (a b : Z) : result unit :=
  if Z.eqb a b then Ok tt else Raise IS_EQUAL_failed.

(** Modelled from the spec: [IS_GREATER(a, b)] raises unless [a > b]. *)
Definition IS_GREATER (a b : Z) : result unit :=
  if Z.ltb b a then Ok tt else Raise IS_GREATER_failed.

(** Modelled from the spec: [IS_ALMOST_EQUAL(a, b, eps)] raises unless
    [a] is [b] within [eps] ("sum to 1 +- 10^-3"; ilqr.cc: "Throw error if
    sum is not close to 1.0"). *)
Definition IS_ALMOST_EQUAL (a b eps : double) : result unit :=
  if Qcleb (Qcabs (a - b)) eps then Ok tt else Raise IS_ALMOST_EQUAL_failed.

(** ** Eigen::MatrixXd *)

Record MatrixXd : Type := mkMatrix {
  rows : nat;
  cols : nat;
  coeffs : list (list double)
}.

(** [M(i, j)] *)
Definition coeff (M : MatrixXd) (i j : nat) : double :=
  nth j (nth i (coeffs M) []) 0.

Definition build (r c : nat) (f : nat -> nat -> double) : MatrixXd :=
  mkMatrix r c (map (fun i => map (fun j => f i j) (seq 0 c)) (seq 0 r)).

(** A matrix literal, given by its rows. *)
Definition matrix (l : list (list double)) : MatrixXd :=
  mkMatrix (length l) (length (hd [] l)) l.

Definition same_shape (M N : MatrixXd) : bool :=
  Nat.eqb (rows M) (rows N) && Nat.eqb (cols M) (cols N).

Fixpoint sum_upto (n : nat) (f : nat -> double) : double :=
  match n with
  | O => 0
  | S m => sum_upto m f + f m
  end.

(** [Eigen::MatrixXd::Zero(r, c)] *)
Definition Zero (r c : Z) : result MatrixXd :=
  if (Z.leb 0 r && Z.leb 0 c)%bool
  then Ok (build (Z.to_nat r) (Z.to_nat c) (fun _ _ => 0))
  else Raise eigen_assert_failed.

(** [M + N] *)
Definition mat_add (M N : MatrixXd) : result MatrixXd :=
  if same_shape M N
  then Ok (build (rows M) (cols M) (fun i j => coeff M i j + coeff N i j))
  else Raise eigen_assert_failed.

(** [M * N] *)
Definition mat_mul (M N : MatrixXd) : result MatrixXd :=
  if Nat.eqb (cols M) (rows N)
  then Ok (build (rows M) (cols N)
             (fun i j => sum_upto (cols M) (fun l => coeff M i l * coeff N l j)))
  else Raise eigen_assert_failed.

(** [a * M] *)
Definition scale (a : double) (M : MatrixXd) : MatrixXd :=
  build (rows M) (cols M) (fun i j => a * coeff M i j).

(** [-M] *)
Definition mat_opp (M : MatrixXd) : MatrixXd :=
  build (rows M) (cols M) (fun i j => - coeff M i j).

(** [M.transpose()] *)
Definition transpose (M : MatrixXd) : MatrixXd :=
  build (cols M) (rows M) (fun i j => coeff M j i).

(** [M.block(i0, j0, p, q)] *)
Definition block (M : MatrixXd) (i0 j0 : Z) (p q : Z) : result MatrixXd :=
  if (Z.leb 0 i0 && Z.leb 0 j0 && Z.leb 0 p && Z.leb 0 q
      && Z.leb (i0 + p) (Z.of_nat (rows M))
      && Z.leb (j0 + q) (Z.of_nat (cols M)))%bool
  then Ok (build (Z.to_nat p) (Z.to_nat q)
             (fun i j => coeff M (Z.to_nat i0 + i) (Z.to_nat j0 + j)))
  else Raise eigen_assert_failed.

(** [M.block(i0, j0, p, q) += X], returning the updated [M]. *)
Definition block_add_assign (M : MatrixXd) (i0 j0 : Z) (p q : Z) (X : MatrixXd)
  : result MatrixXd :=
  if (Z.leb 0 i0 && Z.leb 0 j0 && Z.leb 0 p && Z.leb 0 q
      && Z.leb (i0 + p) (Z.of_nat (rows M))
      && Z.leb (j0 + q) (Z.of_nat (cols M))
      && Z.eqb (Z.of_nat (rows X)) p && Z.eqb (Z.of_nat (cols X)) q)%bool
  then Ok (build (rows M) (cols M)
             (fun i j =>
                if (Nat.leb (Z.to_nat i0) i && Nat.ltb i (Z.to_nat (i0 + p))
                    && Nat.leb (Z.to_nat j0) j && Nat.ltb j (Z.to_nat (j0 + q)))%bool
                then coeff M i j + coeff X (i - Z.to_nat i0) (j - Z.to_nat j0)
                else coeff M i j))
  else Raise eigen_assert_failed.

(** [M.topRows(p)] *)
Definition topRows (M : MatrixXd) (p : Z) : result MatrixXd :=
  block M 0 0 p (Z.of_nat (cols M)).

(** [M.topRightCorner(p, q) += X] *)
Definition topRightCorner_add_assign (M : MatrixXd) (p q : Z) (X : MatrixXd) :=
  block_add_assign M 0 (Z.of_nat (cols M) - q) p q X.

(** [M.bottomLeftCorner(p, q) += X] *)
Definition bottomLeftCorner_add_assign (M : MatrixXd) (p q : Z) (X : MatrixXd) :=
  block_add_assign M (Z.of_nat (rows M) - p) 0 p q X.

(** [M.bottomRightCorner(p, q) += X] *)
Definition bottomRightCorner_add_assign (M : MatrixXd) (p q : Z) (X : MatrixXd) :=
  block_add_assign M (Z.of_nat (rows M) - p) (Z.of_nat (cols M) - q) p q X.

(** [M += N] on whole matrices: unlike plain assignment, Eigen does not
    resize the destination of a compound assignment. *)
Definition add_assign (M N : MatrixXd) : result MatrixXd := mat_add M N.

(** *** [M.inverse()]

    Eigen's inverse is the matrix inverse; on a matrix that is not
    invertible its result is undefined (non-finite coefficients), which is
    [Raise singular_matrix] here.  In exact arithmetic the inverse is the
    adjugate over the determinant. *)

Definition skip (i a : nat) : nat := if Nat.ltb a i then a else S a.

Definition minor (M : MatrixXd) (i j : nat) : MatrixXd :=
  build (pred (rows M)) (pred (cols M))
        (fun a b => coeff M (skip i a) (skip j b)).

Definition sign (i : nat) : double := if Nat.even i then 1 else - (1).

Fixpoint det_upto (fuel : nat) (M : MatrixXd) : double :=
  match fuel with
  | O => 1
  | S fuel' =>
      sum_upto (cols M)
        (fun j => sign j * coeff M 0 j * det_upto fuel' (minor M 0 j))
  end.

Definition det (M : MatrixXd) : double := det_upto (rows M) M.

Definition inverse (M : MatrixXd) : result MatrixXd :=
  if Nat.eqb (rows M) (cols M)
  then if Qceqb (det M) 0
       then Raise singular_matrix
       else Ok (build (rows M) (cols M)
                  (fun i j => sign (i + j) * det (minor M j i) / det M))
  else Raise eigen_assert_failed.

(** ** Plan nodes (the members ilqr.cc reads and writes) *)

(** [node->dynamics_]: the linearized dynamics. *)
Record Dynamics : Type := mkDynamics {
  A : MatrixXd;
  B : MatrixXd
}.

(** [node->cost_]: the quadraticized cost. *)
Record Cost : Type := mkCost {
  Q : MatrixXd;
  R : MatrixXd;
  P : MatrixXd;
  b_u : MatrixXd
}.

Record PlanNode : Type := mkPlanNode {
  dynamics_ : Dynamics;
  cost_ : Cost;
  K_ : MatrixXd;
  k_ : MatrixXd;
  V_ : MatrixXd;
  probability_ : double
}.

Definition set_V_ (node : PlanNode) (Vt : MatrixXd) : PlanNode :=
  mkPlanNode (dynamics_ node) (cost_ node) (K_ node) (k_ node) Vt
             (probability_ node).

Definition set_K_k_ (node : PlanNode) (K k : MatrixXd) : PlanNode :=
  mkPlanNode (dynamics_ node) (cost_ node) K k (V_ node) (probability_ node).

(** ** The plan tree

    A [TreeNodePtr] is the address of a tree node, a
    [std::shared_ptr<PlanNode>] the address of a plan node: two tree nodes
    may hold the same plan node.  The plan nodes live in a [Heap]. *)

Definition TreeNodePtr : Type := nat.
Definition PlanNodePtr : Type := nat.
Definition Heap : Type := list PlanNode.

(** Modelled from the spec: [data::Tree] is not among the sources ("a
    general tree with per-node successor lists"); a node knows its
    [parent()] (null at the root) and its [item()]. *)
Record TreeNode : Type := mkTreeNode {
  parent : option TreeNodePtr;
  item : PlanNodePtr
}.

Definition Tree : Type := list TreeNode.

Record iLQRTree : Type := mkiLQRTree {
  state_dim_ : Z;
  control_dim_ : Z;
  ZeroValueMatrix_ : MatrixXd;
  tree_ : Tree
}.

(** [ptr->...] on a tree node and on a plan node. *)
Definition tree_node (this : iLQRTree) (ptr : TreeNodePtr) : result TreeNode :=
  match nth_error (tree_ this) ptr with
  | Some node => Ok node
  | None => Raise null_pointer
  end.

Definition plan_node (heap : Heap) (ptr : PlanNodePtr) : result PlanNode :=
  match nth_error heap ptr with
  | Some node => Ok node
  | None => Raise null_pointer
  end.

Fixpoint store (heap : Heap) (ptr : PlanNodePtr) (node : PlanNode) : Heap :=
  match heap, ptr with
  | [], _ => []
  | _ :: rest, O => node :: rest
  | x :: rest, S ptr' => x :: store rest ptr' node
  end.

(** [iLQRTree::iLQRTree(state_dim, control_dim)] (ilqr.cc, lines 16-21) *)
Definition new_iLQRTree (state_dim control_dim : Z) : result iLQRTree :=
  ZeroValueMatrix <- Zero (state_dim + 1) (state_dim + 1) ;;
  Ok (mkiLQRTree state_dim control_dim ZeroValueMatrix []).

(** [iLQRTree::add_root(plan_node)] (lines 55-59): [tree_] becomes a
    one-node tree. *)
Definition add_root (this : iLQRTree) (plan_node : PlanNodePtr)
  : iLQRTree * TreeNodePtr :=
  (mkiLQRTree (state_dim_ this) (control_dim_ this) (ZeroValueMatrix_ this)
              [mkTreeNode None plan_node], O).

(** Modelled from the spec: [tree_.add_child(parent, item)] appends a
    successor of [parent]. *)
Definition add_child (tree : Tree) (parent : TreeNodePtr) (item : PlanNodePtr)
  : Tree * TreeNodePtr :=
  (tree ++ [mkTreeNode (Some parent) item], length tree).

Definition has_child (tree : Tree) (ptr : TreeNodePtr) : bool :=
  existsb (fun node => match parent node with
                       | Some p => Nat.eqb p ptr
                       | None => false
                       end) tree.

(** Modelled from the spec: [tree_.leaf_nodes()], the nodes without
    successor. *)
Definition leaf_nodes (tree : Tree) : list TreeNodePtr :=
  filter (fun ptr => negb (has_child tree ptr)) (seq 0 (length tree)).

(** Double precision equality checking epsilon (ilqr.cc, line 12). *)
Definition EPS : double := dbl (1 # 100000).

(** ** iLQRTree::compute_value_matrix (ilqr.cc, lines 127-158) *)

Definition compute_value_matrix (this : iLQRTree) (node : PlanNode)
  (Vt1 : MatrixXd) : result MatrixXd :=
  let state_dim_ := state_dim_ this in
  let A := A (dynamics_ node) in
  let B := B (dynamics_ node) in
  let Q := Q (cost_ node) in
  let P := P (cost_ node) in
  let b_u := b_u (cost_ node) in
  let K := K_ node in
  let k := k_ node in
  (* cntrl_cross_term = P + A.transpose() * Vt1 * B *)
  AtV <- mat_mul (transpose A) Vt1 ;;
  AtVB <- mat_mul AtV B ;;
  cntrl_cross_term <- mat_add P AtVB ;;
  (* quadratic_term = Q + A.transpose() * Vt1 * A + cntrl_cross_term * K *)
  AtVA <- mat_mul AtV A ;;
  Q_AtVA <- mat_add Q AtVA ;;
  crossK <- mat_mul cntrl_cross_term K ;;
  quadratic_term <- mat_add Q_AtVA crossK ;;
  IS_EQUAL (Z.of_nat (rows quadratic_term)) (state_dim_ + 1) ;;;
  IS_EQUAL (Z.of_nat (cols quadratic_term)) (state_dim_ + 1) ;;;
  linear_term <- mat_mul cntrl_cross_term k ;;
  IS_EQUAL (Z.of_nat (rows quadratic_term)) (state_dim_ + 1) ;;;
  IS_EQUAL (Z.of_nat (cols quadratic_term)) 1 ;;;
  constant_term <- mat_mul (transpose b_u) k ;;
  let Vt := quadratic_term in
  lin_top <- topRows linear_term state_dim_ ;;
  Vt <- topRightCorner_add_assign Vt state_dim_ 1 lin_top ;;
  Vt <- bottomLeftCorner_add_assign Vt 1 state_dim_ (transpose lin_top) ;;
  Vt <- bottomRightCorner_add_assign Vt 1 1 constant_term ;;
  Ok Vt.

(** ** iLQRTree::compute_control_policy (ilqr.cc, lines 160-173)

    The method writes [K_] and [k_] of the node; the updated node is the
    result. *)

Definition compute_control_policy (node : PlanNode) (Vt1 : MatrixXd)
  : result PlanNode :=
  let A := A (dynamics_ node) in
  let B := B (dynamics_ node) in
  let P := P (cost_ node) in
  let R := R (cost_ node) in
  let b_u := b_u (cost_ node) in
  (* inv_cntrl_term = (R + B.transpose() * Vt1 * B).inverse() *)
  BtV <- mat_mul (transpose B) Vt1 ;;
  BtVB <- mat_mul BtV B ;;
  R_BtVB <- mat_add R BtVB ;;
  inv_cntrl_term <- inverse R_BtVB ;;
  (* K_ = -1.0 * inv_cntrl_term * (P.transpose() + B.transpose() * Vt1 * A) *)
  BtVA <- mat_mul BtV A ;;
  Pt_BtVA <- mat_add (transpose P) BtVA ;;
  K <- mat_mul (scale (- (1)) inv_cntrl_term) Pt_BtVA ;;
  (* k_ = -1.0 * inv_cntrl_term * b_u *)
  k <- mat_mul (scale (- (1)) inv_cntrl_term) b_u ;;
  Ok (set_K_k_ node K k).

(** ** iLQRTree::add_nodes (ilqr.cc, lines 61-82) *)

Fixpoint add_children (tree : Tree) (parent : TreeNodePtr)
  (plan_nodes : list PlanNodePtr) (children : list TreeNodePtr)
  : Tree * list TreeNodePtr :=
  match plan_nodes with
  | [] => (tree, children)
  | plan_node :: rest =>
      let (tree', child) := add_child tree parent plan_node in
      add_children tree' parent rest (children ++ [child])
  end.

Fixpoint accumulate_probability (heap : Heap) (plan_nodes : list PlanNodePtr)
  (a : double) : result double :=
  match plan_nodes with
  | [] => Ok a
  | ptr :: rest =>
      node <- plan_node heap ptr ;;
      accumulate_probability heap rest (a + probability_ node)
  end.

Definition add_nodes (this : iLQRTree) (heap : Heap)
  (plan_nodes : list PlanNodePtr) (parent : TreeNodePtr)
  : result (iLQRTree * list TreeNodePtr) :=
  probability_sum <- accumulate_probability heap plan_nodes 0 ;;
  IS_ALMOST_EQUAL probability_sum 1 EPS ;;;
  let (tree', children) := add_children (tree_ this) parent plan_nodes [] in
  Ok (mkiLQRTree (state_dim_ this) (control_dim_ this) (ZeroValueMatrix_ this)
                 tree', children).

(** ** iLQRTree::bellman_tree_backup (ilqr.cc, lines 89-92)

    The method is [void]; the tree and the heap after the call are the
    result. *)

Definition bellman_tree_backup (this : iLQRTree) (heap : Heap)
  : iLQRTree * Heap :=
  let all_children := leaf_nodes (tree_ this) in
  (this, heap).

(** ** iLQRTree::backup_to_parents (ilqr.cc, lines 94-125) *)

Definition ParentMap : Type := list (option TreeNodePtr * list TreeNodePtr).

Definition same_key (a b : option TreeNodePtr) : bool :=
  match a, b with
  | Some x, Some y => Nat.eqb x y
  | None, None => true
  | _, _ => false
  end.

(** [parent_map[key].push_back(child)]; the buckets are kept in the order
    in which their keys were first seen (the iteration order of an
    [unordered_map] is unspecified). *)
Fixpoint push_back_at (parent_map : ParentMap) (key : option TreeNodePtr)
  (child : TreeNodePtr) : ParentMap :=
  match parent_map with
  | [] => [(key, [child])]
  | (key', children) :: rest =>
      if same_key key' key
      then (key', children ++ [child]) :: rest
      else (key', children) :: push_back_at rest key child
  end.

(** First loop (lines 100-103). *)
Fixpoint hash_by_parent (this : iLQRTree) (all_children : list TreeNodePtr)
  (parent_map : ParentMap) : result ParentMap :=
  match all_children with
  | [] => Ok parent_map
  | child :: rest =>
      child_node <- tree_node this child ;;
      hash_by_parent this rest (push_back_at parent_map (parent child_node) child)
  end.

(** Inner loop (lines 113-119), [Vt] being the accumulator. *)
Fixpoint backup_children (this : iLQRTree) (heap : Heap)
  (parent_plan_node : PlanNode) (children : list TreeNodePtr) (Vt : MatrixXd)
  : result MatrixXd :=
  match children with
  | [] => Ok Vt
  | child :: rest =>
      child_node <- tree_node this child ;;
      child_plan_node <- plan_node heap (item child_node) ;;
      let p := probability_ child_plan_node in
      Vt_temp <- compute_value_matrix this parent_plan_node (V_ child_plan_node) ;;
      Vt <- add_assign Vt (scale p Vt_temp) ;;
      backup_children this heap parent_plan_node rest Vt
  end.

(** Second loop (lines 106-122). *)
Fixpoint backup_parents (this : iLQRTree) (heap : Heap) (parent_map : ParentMap)
  (parents : list TreeNodePtr) : result (list TreeNodePtr * Heap) :=
  match parent_map with
  | [] => Ok (parents, heap)
  | (parent_key, children) :: rest =>
      Vt <- Zero (state_dim_ this) (state_dim_ this) ;;
      parent_ptr <- match parent_key with
                    | Some ptr => Ok ptr
                    | None => Raise null_pointer
                    end ;;
      parent_node <- tree_node this parent_ptr ;;
      parent_plan_node <- plan_node heap (item parent_node) ;;
      Vt <- backup_children this heap parent_plan_node children Vt ;;
      let heap := store heap (item parent_node) (set_V_ parent_plan_node Vt) in
      backup_parents this heap rest (parents ++ [parent_ptr])
  end.

Definition backup_to_parents (this : iLQRTree) (heap : Heap)
  (all_children : list TreeNodePtr) : result (list TreeNodePtr * Heap) :=
  parent_map <- hash_by_parent this all_children [] ;;
  backup_parents this heap parent_map [].

(** ** namespace ilqr: ilqr_node.hh and templated/iLQR_hindsight.hh *)

Module ilqr.

(** [Eigen::VectorXd], [Vector<n>]: the coefficients; [Matrix<r, c>]: the
    rows.  The templated sizes are compile-time constants, so these
    operations have no run-time shape check. *)
Definition VectorXd : Type := list double.
Definition Matrix : Type := list (list double).

Fixpoint vec_add (x y : VectorXd) : VectorXd :=
  match x, y with
  | a :: x', b :: y' => (a + b) :: vec_add x' y'
  | _, _ => []
  end.

Fixpoint vec_sub (x y : VectorXd) : VectorXd :=
  match x, y with
  | a :: x', b :: y' => (a - b) :: vec_sub x' y'
  | _, _ => []
  end.

Definition vec_scale (a : double) (x : VectorXd) : VectorXd :=
  map (fun b => a * b) x.

Fixpoint dot (x y : VectorXd) : double :=
  match x, y with
  | a :: x', b :: y' => a * b + dot x' y'
  | _, _ => 0
  end.

Definition mat_vec (M : Matrix) (x : VectorXd) : VectorXd :=
  map (fun row => dot row x) M.

(** *** iLQRNode (ilqr_node.hh, lines 23-103) *)

Definition DynamicsFunc : Type := VectorXd -> VectorXd -> VectorXd.
Definition CostFunc : Type := VectorXd -> VectorXd -> double.

(** The terms of the quadratic value function, 1/2 x^T V x + G x + W. *)
Record QuadraticValue : Type := mkQuadraticValue {
  V : MatrixXd;
  G : MatrixXd;
  W : double
}.

Record iLQRNode : Type := mkiLQRNode {
  dynamics_func_ : DynamicsFunc;
  cost_func_ : CostFunc;
  x_ : VectorXd;
  u_ : VectorXd;
  probability_ : double;
  J_ : QuadraticValue;
  K_ : MatrixXd;
  k_ : VectorXd;
  orig_xstar_ : VectorXd;
  orig_ustar_ : VectorXd
}.

(** [void set_probability(double p) { probability_ = p; }] (line 51) *)
Definition set_probability (node : iLQRNode) (p : double) : iLQRNode :=
  mkiLQRNode (dynamics_func_ node) (cost_func_ node) (x_ node) (u_ node) p
             (J_ node) (K_ node) (k_ node) (orig_xstar_ node) (orig_ustar_ node).

(** *** HindsightSplit, HindsightBranch (iLQR_hindsight.hh, lines 27-60)

    A default-constructed [std::function] is empty: [None]. *)

Record HindsightSplit : Type := mkHindsightSplit {
  dynamics : option DynamicsFunc;
  final_cost : option (VectorXd -> double);
  cost : option (VectorXd -> VectorXd -> Z -> double);
  probability : double
}.

Definition default_HindsightSplit : HindsightSplit :=
  mkHindsightSplit None None None 0.

Record HindsightBranch : Type := mkHindsightBranch {
  split : HindsightSplit;
  Ks : list Matrix;
  ks : list VectorXd;
  xhat : list VectorXd;
  uhat : list VectorXd
}.

Definition default_HindsightBranch : HindsightBranch :=
  mkHindsightBranch default_HindsightSplit [] [] [] [].

Definition set_split (branch : HindsightBranch) (s : HindsightSplit)
  : HindsightBranch :=
  mkHindsightBranch s (Ks branch) (ks branch) (xhat branch) (uhat branch).

(** [K0_], [k0_], [x0_], [u0_] are not initialized by the constructor:
    [None]. *)
Record iLQRHindsightSolver : Type := mkiLQRHindsightSolver {
  branches_ : list HindsightBranch;
  K0_ : option Matrix;
  k0_ : option VectorXd;
  x0_ : option VectorXd;
  u0_ : option VectorXd
}.

(** [branches_[i].split = s] *)
Fixpoint assign_split (branches : list HindsightBranch) (i : nat)
  (s : HindsightSplit) : list HindsightBranch :=
  match branches, i with
  | [], _ => []
  | b :: rest, O => set_split b s :: rest
  | b :: rest, S i' => b :: assign_split rest i' s
  end.

(** The loop of the constructor (lines 77-81): [todo] iterations are left,
    the next index is [i]. *)
Fixpoint constructor_loop (splits : list HindsightSplit) (todo i : nat)
  (total_prob : double) (branches : list HindsightBranch)
  : double * list HindsightBranch :=
  match todo with
  | O => (total_prob, branches)
  | S todo' =>
      let s := nth i splits default_HindsightSplit in
      constructor_loop splits todo' (S i) (total_prob + probability s)
                       (assign_split branches i s)
  end.

(** [iLQRHindsightSolver(splits)] (lines 72-83) *)
Definition new_iLQRHindsightSolver (splits : list HindsightSplit)
  : result iLQRHindsightSolver :=
  IS_GREATER (Z.of_nat (length splits)) 0 ;;;
  let branches := repeat default_HindsightBranch (length splits) in
  let (total_prob, branches) :=
    constructor_loop splits (length splits) 0 0 branches in
  IS_ALMOST_EQUAL total_prob 1 (dbl (1 # 1000)) ;;;
  Ok (mkiLQRHindsightSolver branches None None None None).

(** *** compute_control_stepsize (declared at lines 85-89) *)

(** Modelled from the spec: the feedback law of section 3, "applied
    control u_t(x) = u^_t + alpha k_t + K_t (x - x^_t)". *)
Definition feedback (uhat_t k_t : VectorXd) (K_t : Matrix) (xhat_t xt : VectorXd)
  (alpha : double) : VectorXd :=
  vec_add (vec_add uhat_t (vec_scale alpha k_t)) (mat_vec K_t (vec_sub xt xhat_t)).

(** [l[i]], out of range being undefined. *)
Definition at_index {T : Type} (l : list T) (i : Z) : result T :=
  if Z.ltb i 0 then Raise out_of_range
  else match nth_error l (Z.to_nat i) with
       | Some x => Ok x
       | None => Raise out_of_range
       end.

(** Modelled from the spec: [templated/iLQR_hindsight_impl.hh], which
    defines [compute_control_stepsize], is not among the sources.  The
    control is the feedback law with the gains and the expansion points of
    the branch at timestep [t]. *)
Definition compute_control_stepsize (this : iLQRHindsightSolver)
  (branch_num : Z) (xt : VectorXd) (t : Z) (alpha : double) : result VectorXd :=
  branch <- at_index (branches_ this) branch_num ;;
  K_t <- at_index (Ks branch) t ;;
  k_t <- at_index (ks branch) t ;;
  xhat_t <- at_index (xhat branch) t ;;
  uhat_t <- at_index (uhat branch) t ;;
  Ok (feedback uhat_t k_t K_t xhat_t xt alpha).

(** Modelled from the spec: the regular feedback law, the control of a
    regular forward pass, u^_t + k_t + K_t (x - x^_t). *)
Definition regular_feedback (uhat_t k_t : VectorXd) (K_t : Matrix)
  (xhat_t xt : VectorXd) : VectorXd :=
  vec_add (vec_add uhat_t k_t) (mat_vec K_t (vec_sub xt xhat_t)).

(** Modelled from the spec: [timesteps()], the number of timesteps T with
    gains and expansion points in a branch. *)
Definition horizon (branch : HindsightBranch) (T : nat) : Prop :=
  length (Ks branch) = T /\ length (ks branch) = T /\
  length (xhat branch) = T /\ length (uhat branch) = T.

(** *** The line search of solve (declared at lines 99-108)

    The body of [solve] is in [templated/iLQR_hindsight_impl.hh], which is
    not among the sources.  Section 4.5, step 3: "For alpha in {alpha_0,
    alpha_0/2, ..., alpha_min = 2^-10}: accept the first alpha with
    J_alpha < J.  If none accepts after alpha_min, declare line-search
    failure: multiply mu by 10 (if mu = 0, set mu = 10^-6) and retry step
    2; if mu exceeds 10^6, terminate with StuckAtLocalMin." *)

(** Modelled from the spec: alpha_min = 2^-10. *)
Definition alpha_min : double := dbl (1 # 1024).

(** Modelled from the spec: the damping threshold 10^6. *)
Definition mu_threshold : double := dbl (1000000 # 1).

(** Modelled from the spec: the first damping, 10^-6. *)
Definition mu_initial : double := dbl (1 # 1000000).

Definition two : double := dbl (2 # 1).
Definition ten : double := dbl (10 # 1).

Definition Qcltb (x y : double) : bool := negb (Qcleb y x).

(** Modelled from the spec: "multiply mu by 10 (if mu = 0, set
    mu = 10^-6)". *)
Definition escalate (mu : double) : double :=
  if Qceqb mu 0 then mu_initial else ten * mu.

Inductive search : Type :=
| Accepted (alpha : double)
| Failure.

Inductive outcome : Type :=
| Accept (mu alpha : double)
| StuckAtLocalMin (mu : double).

(** Modelled from the spec: the state ForwardTry(alpha) of step 3, with
    its moves Accept, Shrink and (line-search failure) Damp.
    [candidate alpha] is the expected cost of the forward simulation with
    step [alpha], [Jbar] the current cost.  [None] when the fuel runs
    out. *)
Fixpoint forward_try (candidate : double -> double) (Jbar : double)
  (fuel : nat) (alpha : double) : option search :=
  match fuel with
  | O => None
  | S fuel' =>
      if Qcltb (candidate alpha) Jbar then Some (Accepted alpha)
      else if Qcleb alpha_min (alpha / two)
           then forward_try candidate Jbar fuel' (alpha / two)
           else Some Failure
  end.

(** The halving sequence from a step in (0, 1] has at most 11 members. *)
Definition tries : nat := 11.

(** Modelled from the spec: the backward sweep at damping [mu], then the
    line search, then Accept, or Damp and retry; [candidate mu] is the
    candidate cost under the gains of the sweep at damping [mu].  [None]
    when the fuel runs out. *)
Fixpoint damped_search (candidate : double -> double -> double) (Jbar : double)
  (alpha0 : double) (fuel : nat) (mu : double) : option outcome :=
  match fuel with
  | O => None
  | S fuel' =>
      match forward_try (candidate mu) Jbar tries alpha0 with
      | None => None
      | Some (Accepted alpha) => Some (Accept mu alpha)
      | Some Failure =>
          let mu' := escalate mu in
          if Qcltb mu_threshold mu' then Some (StuckAtLocalMin mu')
          else damped_search candidate Jbar alpha0 fuel' mu'
      end
  end.

(** Escalations that suffice from [mu]: 10^(7 + s) mu > 10^6 when the
    denominator of [mu] is at most 2^s. *)
Definition escalations (mu : double) : nat :=
  if Qceqb mu 0 then 14%nat
  else (7 + Z.to_nat (Z.log2_up (Zpos (Qden mu))))%nat.

(** Modelled from the spec: step 3 from the damping [mu], with the fuel
    that suffices. *)
Definition line_search (candidate : double -> double -> double) (Jbar : double)
  (alpha0 mu : double) : option outcome :=
  damped_search candidate Jbar alpha0 (escalations mu) mu.

End ilqr.

(** ** iLQRTree::make_plan_node and add_root from a nominal point
       (ilqr.cc, lines 23-53) *)

(** The class [PlanNode] is declared in [ilqr/ilqr.hh], which is not
    among the sources: its constructor, its setters and the two updates of
    its Taylor expansions are the members of an interface.  The updates
    call the closures, so they may raise. *)
Class PlanNodeClass : Type := {
  DynamicsFunc : Type;
  CostFunc : Type;
  new_PlanNode : Z -> Z -> DynamicsFunc -> CostFunc -> double -> PlanNode;
  set_xstar : PlanNode -> list double -> PlanNode;
  set_ustar : PlanNode -> list double -> PlanNode;
  set_x : PlanNode -> list double -> PlanNode;
  set_u : PlanNode -> list double -> PlanNode;
  update_dynamics : PlanNode -> result PlanNode;
  update_cost : PlanNode -> result PlanNode
}.

(** [std::make_shared<PlanNode>]: the new plan node gets an address of
    its own. *)
Definition make_shared (heap : Heap) (node : PlanNode) : PlanNodePtr * Heap :=
  (length heap, heap ++ [node]).

(** [iLQRTree::make_plan_node] (lines 23-47).  Until it is returned the
    new plan node is known to this call only: it enters the heap, at the
    address [make_shared] gave it, when the call returns. *)
Definition make_plan_node {C : PlanNodeClass} (this : iLQRTree) (heap : Heap)
  (x_star u_star : list double) (dynamics_func : DynamicsFunc)
  (cost_func : CostFunc) (probability : double) : result (PlanNodePtr * Heap) :=
  IS_EQUAL (Z.of_nat (length x_star)) (state_dim_ this) ;;;
  IS_EQUAL (Z.of_nat (length u_star)) (control_dim_ this) ;;;
  let plan_node :=
    new_PlanNode (state_dim_ this) (control_dim_ this) dynamics_func cost_func
                 probability in
  let plan_node := set_xstar plan_node x_star in
  let plan_node := set_ustar plan_node u_star in
  let plan_node := set_x plan_node x_star in
  let plan_node := set_u plan_node u_star in
  plan_node <- update_dynamics plan_node ;;
  plan_node <- update_cost plan_node ;;
  Ok (make_shared heap plan_node).

(** [iLQRTree::add_root(x_star, u_star, dynamics_func, cost_func)]
    (lines 49-53) *)
Definition add_root_at {C : PlanNodeClass} (this : iLQRTree) (heap : Heap)
  (x_star u_star : list double) (dynamics_func : DynamicsFunc)
  (cost_func : CostFunc) : result (iLQRTree * TreeNodePtr * Heap) :=
  made <- make_plan_node this heap x_star u_star dynamics_func cost_func 1 ;;
  Ok (add_root this (fst made), snd made).

(** ** experiments/single_obs_diffdrive.hh: PolicyTypes and to_string
       (lines 13-40) *)

Section Policies.
Import String.

(** [enum class PolicyTypes]: a value of the underlying type [int], the
    enumerators being 0, 1, 2 and 3. *)
Definition PolicyTypes : Type := Z.
Definition HINDSIGHT : PolicyTypes := 0%Z.
Definition TRUE_ILQR : PolicyTypes := 1%Z.
Definition ARGMAX_ILQR : PolicyTypes := 2%Z.
Definition PROB_WEIGHTED_CONTROL : PolicyTypes := 3%Z.

Definition unrecognized : String.string :=
  "Unrecognized policy type. Error."%string.

(** [std::string to_string(const PolicyTypes policy_type)]: the switch,
    then the return after it. *)
Definition to_string (policy_type : PolicyTypes) : String.string :=
  if Z.eqb policy_type HINDSIGHT then "hindsight"%string
  else if Z.eqb policy_type TRUE_ILQR then "ilqr_true"%string
  else if Z.eqb policy_type ARGMAX_ILQR then "argmax"%string
  else if Z.eqb policy_type PROB_WEIGHTED_CONTROL then "weighted"%string
  else unrecognized.

End Policies.

(** * Part II.  The statements of the specification, and concrete inputs

    The definitions of this part follow the words of the specification
    (sections 3, 4.3, 4.5 and 6); they are what the embedding of the
    sources is compared with. *)

(** ** Section 4.3: the control solution *)

(** Q_uu = R + B^T V_{t+1} B *)
Definition Q_uu (node : PlanNode) (Vt1 : MatrixXd) : result MatrixXd :=
  BtV <- mat_mul (transpose (B (dynamics_ node))) Vt1 ;;
  BtVB <- mat_mul BtV (B (dynamics_ node)) ;;
  mat_add (R (cost_ node)) BtVB.

(** Q_ux = P^T + B^T V_{t+1} A *)
Definition Q_ux (node : PlanNode) (Vt1 : MatrixXd) : result MatrixXd :=
  BtV <- mat_mul (transpose (B (dynamics_ node))) Vt1 ;;
  BtVA <- mat_mul BtV (A (dynamics_ node)) ;;
  mat_add (transpose (P (cost_ node))) BtVA.

(** Q_u = b_u + B^T G_{t+1}^T *)
Definition Q_u (node : PlanNode) (Gt1 : MatrixXd) : result MatrixXd :=
  BtGt <- mat_mul (transpose (B (dynamics_ node))) (transpose Gt1) ;;
  mat_add (b_u (cost_ node)) BtGt.

(** The solution [-Q_uu^-1 rhs]. *)
Definition minus_solve (Quu rhs : MatrixXd) : result MatrixXd :=
  Quu_inv <- inverse Quu ;;
  X <- mat_mul Quu_inv rhs ;;
  Ok (mat_opp X).

(** K = -Q_uu^-1 Q_ux *)
Definition feedback_gain (node : PlanNode) (Vt1 : MatrixXd) : result MatrixXd :=
  Quu <- Q_uu node Vt1 ;;
  Qux <- Q_ux node Vt1 ;;
  minus_solve Quu Qux.

(** k = -Q_uu^-1 Q_u, as section 4.3 has it. *)
Definition feedforward_with_linear_value (node : PlanNode) (Vt1 Gt1 : MatrixXd)
  : result MatrixXd :=
  Quu <- Q_uu node Vt1 ;;
  Qu <- Q_u node Gt1 ;;
  minus_solve Quu Qu.

(** k = -Q_uu^-1 b_u *)
Definition feedforward_gain (node : PlanNode) (Vt1 : MatrixXd) : result MatrixXd :=
  Quu <- Q_uu node Vt1 ;;
  minus_solve Quu (b_u (cost_ node)).

(** The leading [n] x [n] block. *)
Definition leading (M : MatrixXd) (n : nat) : MatrixXd := build n n (coeff M).

Definition symmetric (M : MatrixXd) : bool :=
  Nat.eqb (rows M) (cols M)
  && forallb (fun i => forallb (fun j => Qceqb (coeff M i j) (coeff M j i))
                         (seq 0 (cols M))) (seq 0 (rows M)).

(** Modelled from the spec: a Cholesky factorization succeeds on the
    symmetric positive definite matrices, those whose leading principal
    minors are all positive. *)
Definition cholesky_succeeds (M : MatrixXd) : bool :=
  symmetric M
  && forallb (fun n => negb (Qcleb (det (leading M n)) 0)) (seq 1 (rows M)).

(** ** The parent map of the sweep *)

(** Every bucket of the map has a child. *)
Definition no_empty_bucket (parent_map : ParentMap) : Prop :=
  Forall (fun bucket => snd bucket <> []) parent_map.

(** ** Plan nodes and plan trees used as inputs *)

(** A matrix of integers. *)
Definition int_matrix (l : list (list Z)) : MatrixXd :=
  matrix (map (map (fun z => dbl (inject_Z z))) l).

Definition half : double := dbl (1 # 2).

(** A plan node like [like], with value matrix [V] and probability [p]. *)
Definition leaf (V : MatrixXd) (p : double) (like : PlanNode) : PlanNode :=
  mkPlanNode (dynamics_ like) (cost_ like) (K_ like) (k_ like) V p.

(** A node of state dimension 1 on the extended state (x, 1), with one
    control that moves x. *)
Definition slider : PlanNode :=
  mkPlanNode
    (mkDynamics (int_matrix [ [1; 0]; [0; 1] ]%Z) (int_matrix [ [1]; [0] ]%Z))
    (mkCost (int_matrix [ [1; 0]; [0; 0] ]%Z) (int_matrix [ [1] ]%Z)
            (int_matrix [ [0]; [0] ]%Z) (int_matrix [ [0] ]%Z))
    (int_matrix [ [0; 0] ]%Z) (int_matrix [ [0] ]%Z)
    (int_matrix [ [0; 0]; [0; 0] ]%Z) 1.

(** A successor value on the extended state: V = 0, G = 1, W = 0. *)
Definition slider_successor : MatrixXd := int_matrix [ [0; 1]; [1; 0] ]%Z.

(** Its linear row, (G W) = (1 0). *)
Definition slider_successor_G : MatrixXd := int_matrix [ [1; 0] ]%Z.

(** A node whose control Hessian R + B^T V B is -1. *)
Definition concave : PlanNode :=
  mkPlanNode
    (mkDynamics (int_matrix [ [1; 0]; [0; 1] ]%Z) (int_matrix [ [1]; [0] ]%Z))
    (mkCost (int_matrix [ [1; 0]; [0; 0] ]%Z) (int_matrix [ [-1] ]%Z)
            (int_matrix [ [1]; [0] ]%Z) (int_matrix [ [2] ]%Z))
    (int_matrix [ [0; 0] ]%Z) (int_matrix [ [0] ]%Z)
    (int_matrix [ [0; 0]; [0; 0] ]%Z) 1.

(** State dimension 1, on the extended state (x, 1). *)
Definition fork1_heap : Heap :=
  [ slider;
    leaf (int_matrix [ [1; 0]; [0; 0] ]%Z) half slider;
    leaf (int_matrix [ [3; 0]; [0; 0] ]%Z) half slider ].

Definition fork1 : iLQRTree :=
  mkiLQRTree 1 1 (int_matrix [ [0; 0]; [0; 0] ]%Z)
             [ mkTreeNode None 0%nat; mkTreeNode (Some 0%nat) 1%nat;
               mkTreeNode (Some 0%nat) 2%nat ].

(** State dimension 0: the extended state is the constant 1 and every
    matrix of the node is 1 x 1. *)
Definition point : PlanNode :=
  mkPlanNode
    (mkDynamics (int_matrix [ [1] ]%Z) (int_matrix [ [1] ]%Z))
    (mkCost (int_matrix [ [1] ]%Z) (int_matrix [ [1] ]%Z)
            (int_matrix [ [0] ]%Z) (int_matrix [ [2] ]%Z))
    (int_matrix [ [3] ]%Z) (int_matrix [ [5] ]%Z) (int_matrix [ [0] ]%Z) 1.

Definition fork0_heap : Heap :=
  [ point; leaf (int_matrix [ [2] ]%Z) half point;
    leaf (int_matrix [ [4] ]%Z) half point ].

Definition fork0 : iLQRTree :=
  mkiLQRTree 0 1 (int_matrix [ [0] ]%Z)
             [ mkTreeNode None 0%nat; mkTreeNode (Some 0%nat) 1%nat;
               mkTreeNode (Some 0%nat) 2%nat ].

(** The trees as the interface builds them: the constructor, [add_root],
    then [add_nodes] with the two children, which checks the sum of their
    probabilities. *)
Definition grow (state_dim : Z) (heap : Heap) : result (iLQRTree * list TreeNodePtr) :=
  tree <- new_iLQRTree state_dim 1 ;;
  let (tree, root) := add_root tree 0%nat in
  add_nodes tree heap [1%nat; 2%nat] root.

(** Two children of probabilities 3/2 and -1/2. *)
Definition signed_heap : Heap :=
  [ slider;
    leaf (int_matrix [ [1; 0]; [0; 0] ]%Z) (dbl (3 # 2)) slider;
    leaf (int_matrix [ [3; 0]; [0; 0] ]%Z) (dbl (-1 # 2)) slider ].

(** ** Sections 3, 4.5 and 6: the hindsight solver *)

Section Hindsight.
Import ilqr.

(** One [set_probability] per node, in order: the per-node form of a
    probability update over the sibling branches. *)
Fixpoint set_probabilities (nodes : list iLQRNode) (p : list double)
  : list iLQRNode :=
  match nodes, p with
  | node :: nodes', p_i :: p' => set_probability node p_i :: set_probabilities nodes' p'
  | _, _ => nodes
  end.

Definition sum (p : list double) : double := fold_right Qcplus 0 p.

Definition tolerance : double := dbl (1 # 1000).

(** Probability conservation: the sum is 1 within 10^-3 and no
    probability is negative. *)
Definition conserved (p : list double) : bool :=
  Qcleb (Qcabs (sum p - 1)) tolerance && forallb (fun p_i => Qcleb 0 p_i) p.

(** The branch the constructor makes of a split. *)
Definition branch_of (s : HindsightSplit) : HindsightBranch :=
  set_split default_HindsightBranch s.

(** Closures of a split: a plant that stays where it is, at no cost. *)
Definition still (x : VectorXd) (u : VectorXd) : VectorXd := x.

Definition free (x : VectorXd) (u : VectorXd) (t : Z) : double := 0.

Definition free_final (x : VectorXd) : double := 0.

(** A prior of two hypotheses, 3/2 and -1/2: it sums to 1. *)
Definition signed_prior : list HindsightSplit :=
  [ mkHindsightSplit (Some still) (Some free_final) (Some free) (dbl (3 # 2));
    mkHindsightSplit (Some still) (Some free_final) (Some free) (dbl (-1 # 2)) ].

(** A node of a single branch, of probability 1. *)
Definition origin : iLQRNode :=
  mkiLQRNode (fun x u => x) (fun x u => 0) [0] [0] 1
             (mkQuadraticValue (matrix [ [0] ]) (matrix [ [0] ]) 0)
             (matrix [ [0] ]) [0] [0] [0].

(** Two sibling branches of probability 1/2 each. *)
Definition two_branches : list iLQRNode :=
  [set_probability origin half; set_probability origin half].

(** [node'] is [node] but for its probability: the closures, the
    expansion point, the value, the gains and the original nominal point
    are the same. *)
Definition same_but_probability (node node' : iLQRNode) : Prop :=
  dynamics_func_ node' = dynamics_func_ node /\
  cost_func_ node' = cost_func_ node /\
  x_ node' = x_ node /\ u_ node' = u_ node /\
  J_ node' = J_ node /\ K_ node' = K_ node /\ k_ node' = k_ node /\
  orig_xstar_ node' = orig_xstar_ node /\ orig_ustar_ node' = orig_ustar_ node.

(** A branch of one timestep: K = 2, k = 3, x^ = 1, u^ = 5. *)
Definition one_step_branch : HindsightBranch :=
  mkHindsightBranch default_HindsightSplit
    [ [ [dbl (2 # 1)] ] ] [ [dbl (3 # 1)] ] [ [dbl (1 # 1)] ] [ [dbl (5 # 1)] ].

Definition one_branch_solver : iLQRHindsightSolver :=
  mkiLQRHindsightSolver [one_step_branch] None None None None.

(** The halving sequence alpha, alpha/2, alpha/4, ... *)
Fixpoint halved (alpha : double) (i : nat) : double :=
  match i with
  | O => alpha
  | S i' => halved (alpha / two) i'
  end.

(** What the line search returns from [alpha0]: the first accepted member
    of the halving sequence, or a failure after the last member above
    [alpha_min]. *)
Definition searched (candidate : double -> double) (Jbar alpha0 : double)
  (r : search) : Prop :=
  match r with
  | Accepted alpha =>
      exists i : nat,
        alpha = halved alpha0 i /\
        candidate alpha < Jbar /\
        (forall j, (j < i)%nat -> ~ candidate (halved alpha0 j) < Jbar) /\
        (forall j, (0 < j <= i)%nat -> alpha_min <= halved alpha0 j)
  | Failure =>
      exists i : nat,
        (forall j, (j <= i)%nat -> ~ candidate (halved alpha0 j) < Jbar) /\
        (forall j, (0 < j <= i)%nat -> alpha_min <= halved alpha0 j) /\
        halved alpha0 (S i) < alpha_min
  end.

(** What the damped search returns from [mu]: an accepted step at a
    damping reached from [mu] by escalations, or [StuckAtLocalMin] with a
    damping above the threshold, the line search having failed at every
    damping before. *)
Definition settled (candidate : double -> double -> double)
  (Jbar alpha0 mu : double) (o : outcome) : Prop :=
  match o with
  | Accept mu' alpha =>
      exists n : nat,
        mu' = Nat.iter n escalate mu /\
        searched (candidate mu') Jbar alpha0 (Accepted alpha) /\
        (forall m, (m < n)%nat ->
                   searched (candidate (Nat.iter m escalate mu)) Jbar alpha0 Failure)
  | StuckAtLocalMin mu' =>
      exists n : nat,
        mu' = Nat.iter (S n) escalate mu /\
        mu_threshold < mu' /\
        (forall m, (m <= n)%nat ->
                   searched (candidate (Nat.iter m escalate mu)) Jbar alpha0 Failure)
  end.

(** A cost that only a step of at most 1/4 improves, from damping 0. *)
Definition quarter_cost (mu alpha : double) : double :=
  if Qcleb alpha (dbl (1 # 4)) then 0 else 1.

End Hindsight.

(** ** What the sources group and require *)

(** [child->parent() == key] *)
Definition has_parent (this : iLQRTree) (key : option TreeNodePtr)
  (child : TreeNodePtr) : bool :=
  match tree_node this child with
  | Ok child_node => same_key (parent child_node) key
  | Raise _ => false
  end.

(** The parent map after the children [seen]: one bucket per parent, each
    with the children of that parent, in order. *)
Definition grouped (this : iLQRTree) (seen : list TreeNodePtr)
  (parent_map : ParentMap) : Prop :=
  NoDup (map fst parent_map) /\
  (forall key children, In (key, children) parent_map ->
     children <> [] /\ children = filter (has_parent this key) seen) /\
  (forall child, In child seen ->
     exists child_node, tree_node this child = Ok child_node /\
                        In (parent child_node) (map fst parent_map)).

(** The shapes with which every Eigen operation of
    [compute_control_policy] conforms: [Vt1] is square of the size of the
    rows of [B]; [A] has as many rows; [R] is square of the size of the
    columns of [B]; [P] is (columns of [A]) x (columns of [B]); [b_u] has as
    many rows as [B] has columns. *)
Definition conforming (node : PlanNode) (Vt1 : MatrixXd) : bool :=
  let A := A (dynamics_ node) in
  let B := B (dynamics_ node) in
  let P := P (cost_ node) in
  let R := R (cost_ node) in
  let b_u := b_u (cost_ node) in
  Nat.eqb (rows Vt1) (rows B) && Nat.eqb (cols Vt1) (rows B)
  && Nat.eqb (rows A) (rows B)
  && Nat.eqb (rows R) (cols B) && Nat.eqb (cols R) (cols B)
  && Nat.eqb (rows P) (cols A) && Nat.eqb (cols P) (cols B)
  && Nat.eqb (rows b_u) (cols B).

(** The shapes of a plan node on the extended state of [state_dim_ + 1]
    coefficients, with its gains: everything that multiplies the state is
    (state_dim_ + 1) wide. *)
Definition on_extended_state (this : iLQRTree) (node : PlanNode) (Vt1 : MatrixXd)
  : bool :=
  let n := Z.to_nat (state_dim_ this + 1) in
  let A := A (dynamics_ node) in
  let B := B (dynamics_ node) in
  let Q := Q (cost_ node) in
  let P := P (cost_ node) in
  let K := K_ node in
  let k := k_ node in
  Nat.eqb (rows A) n && Nat.eqb (cols A) n && Nat.eqb (rows B) n
  && Nat.eqb (rows Vt1) n && Nat.eqb (cols Vt1) n
  && Nat.eqb (rows Q) n && Nat.eqb (cols Q) n
  && Nat.eqb (rows P) n && Nat.eqb (cols P) (cols B)
  && Nat.eqb (rows K) (cols B) && Nat.eqb (cols K) n
  && Nat.eqb (rows k) (cols B).

(** A plan node class for concrete inputs: closures without content, a
    constructor that stores the probability in a node like [slider],
    setters and updates that keep the node. *)
Definition plain_node (probability : double) : PlanNode :=
  leaf (int_matrix [ [0; 0]; [0; 0] ]%Z) probability slider.

Definition plain : PlanNodeClass := {|
  DynamicsFunc := unit;
  CostFunc := unit;
  new_PlanNode := fun _ _ _ _ probability => plain_node probability;
  set_xstar := fun node _ => node;
  set_ustar := fun node _ => node;
  set_x := fun node _ => node;
  set_u := fun node _ => node;
  update_dynamics := fun node => Ok node;
  update_cost := fun node => Ok node
|}.

(** * Part III.  Proofs *)

Lemma Qcleb_le (x y : double) : Qcleb x y = true <-> x <= y.
Proof. unfold Qcleb, Qcle. apply Qle_bool_iff. Qed.

Lemma Qceqb_eq (x y : double) : Qceqb x y = true <-> x = y.
Proof.
  unfold Qceqb. rewrite Qeq_bool_iff. split.
  - apply Qc_is_canon.
  - intros ->. reflexivity.
Qed.

Lemma bind_Ok {T U : Type} (c : result T) (f : T -> result U) (y : U) :
  bind c f = Ok y -> exists x, c = Ok x /\ f x = Ok y.
Proof. destruct c as [x|e]; simpl; intros H; [eauto | discriminate]. Qed.

(** Inverts a chain of binds that returns. *)
Ltac bind_inv H :=
  repeat (let x := fresh "x" in
          let E := fresh "E" in
          apply bind_Ok in H; destruct H as (x & E & H)).

(** Closes an equation between computed values with rational leaves. *)
Ltac by_computation :=
  vm_compute;
  repeat match goal with
         | |- @eq Qc _ _ => apply Qc_is_canon; reflexivity
         | |- _ => progress f_equal
         | |- _ => reflexivity
         end.

(** ** Coefficients of built matrices *)

Section MatrixFacts.

Lemma coeff_build (r c : nat) (f : nat -> nat -> double) (i j : nat) :
  (i < r)%nat -> (j < c)%nat -> coeff (build r c f) i j = f i j.
Proof.
  intros Hi Hj. unfold coeff, build. cbn [coeffs].
  rewrite (nth_indep _ [] (map (fun j => f 0%nat j) (seq 0 c)))
    by (rewrite length_map, length_seq; exact Hi).
  rewrite (map_nth (fun i => map (fun j => f i j) (seq 0 c)) (seq 0 r) 0%nat i).
  rewrite seq_nth by exact Hi. cbn [Nat.add].
  rewrite (nth_indep _ 0 (f i 0%nat))
    by (rewrite length_map, length_seq; exact Hj).
  rewrite (map_nth (fun j => f i j) (seq 0 c) 0%nat j).
  now rewrite seq_nth by exact Hj.
Qed.

Lemma build_ext (r c : nat) (f g : nat -> nat -> double) :
  (forall i j, (i < r)%nat -> (j < c)%nat -> f i j = g i j) ->
  build r c f = build r c g.
Proof.
  intros H. unfold build. f_equal.
  apply map_ext_in. intros i Hi. apply in_seq in Hi.
  apply map_ext_in. intros j Hj. apply in_seq in Hj.
  apply H; lia.
Qed.

Lemma sum_upto_ext (n : nat) (f g : nat -> double) :
  (forall l, (l < n)%nat -> f l = g l) -> sum_upto n f = sum_upto n g.
Proof.
  induction n as [|n IH]; intros H; simpl.
  - reflexivity.
  - rewrite IH by (intros l Hl; apply H; lia). now rewrite H by lia.
Qed.

Lemma sum_upto_opp (n : nat) (f : nat -> double) :
  sum_upto n (fun l => - f l) = - sum_upto n f.
Proof.
  induction n as [|n IH]; simpl.
  - ring.
  - rewrite IH. ring.
Qed.

(** [(-1.0 * M) * N] is [-(M * N)]. *)
Lemma mat_mul_scale_opp (M N X : MatrixXd) :
  mat_mul M N = Ok X -> mat_mul (scale (- (1)) M) N = Ok (mat_opp X).
Proof.
  unfold mat_mul. cbn [scale rows cols build].
  destruct (Nat.eqb (cols M) (rows N)); [|discriminate].
  intros H. injection H as <-. f_equal. unfold mat_opp. cbn [rows cols build].
  apply build_ext. intros i j Hi Hj.
  rewrite coeff_build by assumption.
  rewrite <- sum_upto_opp. apply sum_upto_ext. intros l Hl.
  unfold scale. rewrite coeff_build by assumption. ring.
Qed.

Lemma block_add_assign_shape (M X Y : MatrixXd) (i0 j0 p q : Z) :
  block_add_assign M i0 j0 p q X = Ok Y -> rows Y = rows M /\ cols Y = cols M.
Proof.
  unfold block_add_assign. destruct (_ && _)%bool; [|discriminate].
  intros H. injection H as <-. cbn [rows cols build]. auto.
Qed.

End MatrixFacts.

(** ** Shapes that conform *)

Section Conformity.

Lemma mat_mul_Ok (M N X : MatrixXd) :
  mat_mul M N = Ok X -> cols M = rows N /\ rows X = rows M /\ cols X = cols N.
Proof.
  unfold mat_mul. destruct (Nat.eqb_spec (cols M) (rows N)); [|discriminate].
  intros H. injection H as <-. cbn [rows cols build]. auto.
Qed.

Lemma mat_add_Ok (M N X : MatrixXd) :
  mat_add M N = Ok X ->
  rows M = rows N /\ cols M = cols N /\ rows X = rows M /\ cols X = cols M.
Proof.
  unfold mat_add, same_shape.
  destruct (Nat.eqb_spec (rows M) (rows N)); [|discriminate].
  destruct (Nat.eqb_spec (cols M) (cols N)); [|discriminate].
  intros H. injection H as <-. cbn [rows cols build]. auto.
Qed.

Lemma inverse_Ok (M X : MatrixXd) :
  inverse M = Ok X ->
  rows M = cols M /\ det M <> 0 /\ rows X = rows M /\ cols X = cols M.
Proof.
  unfold inverse. destruct (Nat.eqb_spec (rows M) (cols M)); [|discriminate].
  destruct (Qceqb (det M) 0) eqn:E; [discriminate|].
  intros H. injection H as <-. cbn [rows cols build].
  repeat split; try assumption.
  intros Hd. apply Qceqb_eq in Hd. congruence.
Qed.

Lemma mat_mul_returns (M N : MatrixXd) :
  cols M = rows N ->
  exists X, mat_mul M N = Ok X /\ rows X = rows M /\ cols X = cols N.
Proof.
  intros H. unfold mat_mul. rewrite H, Nat.eqb_refl. eexists.
  split; [reflexivity|]. cbn [rows cols build]. auto.
Qed.

Lemma mat_add_returns (M N : MatrixXd) :
  rows M = rows N -> cols M = cols N ->
  exists X, mat_add M N = Ok X /\ rows X = rows M /\ cols X = cols M.
Proof.
  intros Hr Hc. unfold mat_add, same_shape. rewrite Hr, Hc, !Nat.eqb_refl.
  eexists. split; [reflexivity|]. cbn [rows cols build]. auto.
Qed.

Lemma inverse_returns (M : MatrixXd) :
  rows M = cols M -> det M <> 0 ->
  exists X, inverse M = Ok X /\ rows X = rows M /\ cols X = cols M.
Proof.
  intros Hs Hd. unfold inverse. rewrite <- Hs, Nat.eqb_refl.
  destruct (Qceqb (det M) 0) eqn:E; [apply Qceqb_eq in E; contradiction|].
  eexists. split; [reflexivity|]. cbn [rows cols build]. auto.
Qed.

Lemma conforming_spec (node : PlanNode) (Vt1 : MatrixXd) :
  conforming node Vt1 = true <->
  rows Vt1 = rows (B (dynamics_ node)) /\
  cols Vt1 = rows (B (dynamics_ node)) /\
  rows (A (dynamics_ node)) = rows (B (dynamics_ node)) /\
  rows (R (cost_ node)) = cols (B (dynamics_ node)) /\
  cols (R (cost_ node)) = cols (B (dynamics_ node)) /\
  rows (P (cost_ node)) = cols (A (dynamics_ node)) /\
  cols (P (cost_ node)) = cols (B (dynamics_ node)) /\
  rows (b_u (cost_ node)) = cols (B (dynamics_ node)).
Proof.
  unfold conforming. cbv zeta. rewrite !andb_true_iff, !Nat.eqb_eq. tauto.
Qed.

(** The control Hessian and the cross term of a conforming node. *)
Lemma Q_uu_returns (node : PlanNode) (Vt1 : MatrixXd) :
  conforming node Vt1 = true ->
  exists Quu, Q_uu node Vt1 = Ok Quu /\
              rows Quu = cols (B (dynamics_ node)) /\
              cols Quu = cols (B (dynamics_ node)).
Proof.
  intros Hc. apply conforming_spec in Hc.
  destruct Hc as (H1 & H2 & H3 & H4 & H5 & H6 & H7 & H8). unfold Q_uu.
  destruct (mat_mul_returns (transpose (B (dynamics_ node))) Vt1)
    as (BtV & -> & ? & ?); [cbn [rows cols transpose build]; lia|].
  cbn [bind]. cbn [rows cols transpose build] in *.
  destruct (mat_mul_returns BtV (B (dynamics_ node))) as (BtVB & -> & ? & ?);
    [lia|].
  cbn [bind].
  destruct (mat_add_returns (R (cost_ node)) BtVB) as (Quu & -> & ? & ?);
    [lia ..|].
  exists Quu. repeat split; lia.
Qed.

Lemma Q_ux_returns (node : PlanNode) (Vt1 : MatrixXd) :
  conforming node Vt1 = true ->
  exists Qux, Q_ux node Vt1 = Ok Qux /\
              rows Qux = cols (B (dynamics_ node)) /\
              cols Qux = cols (A (dynamics_ node)).
Proof.
  intros Hc. apply conforming_spec in Hc.
  destruct Hc as (H1 & H2 & H3 & H4 & H5 & H6 & H7 & H8). unfold Q_ux.
  destruct (mat_mul_returns (transpose (B (dynamics_ node))) Vt1)
    as (BtV & -> & ? & ?); [cbn [rows cols transpose build]; lia|].
  cbn [bind]. cbn [rows cols transpose build] in *.
  destruct (mat_mul_returns BtV (A (dynamics_ node))) as (BtVA & -> & ? & ?);
    [lia|].
  cbn [bind].
  destruct (mat_add_returns (transpose (P (cost_ node))) BtVA)
    as (Qux & -> & Hr & Hc); [cbn [rows cols transpose build]; lia ..|].
  cbn [rows cols transpose build] in *.
  exists Qux. repeat split; lia.
Qed.

(** [compute_control_policy] in terms of the control Hessian and the
    cross term: the inverse of the one, times the other. *)
Lemma compute_control_policy_eq (node : PlanNode) (Vt1 : MatrixXd) :
  compute_control_policy node Vt1 =
  (Quu <- Q_uu node Vt1 ;;
   Quu_inv <- inverse Quu ;;
   Qux <- Q_ux node Vt1 ;;
   K <- mat_mul (scale (- (1)) Quu_inv) Qux ;;
   k <- mat_mul (scale (- (1)) Quu_inv) (b_u (cost_ node)) ;;
   Ok (set_K_k_ node K k)).
Proof.
  unfold compute_control_policy, Q_uu, Q_ux. cbv zeta.
  destruct (mat_mul (transpose (B (dynamics_ node))) Vt1) as [BtV|e];
    cbn [bind]; [|reflexivity].
  destruct (mat_mul BtV (B (dynamics_ node))) as [BtVB|e];
    cbn [bind]; [|reflexivity].
  destruct (mat_add (R (cost_ node)) BtVB) as [Quu|e];
    cbn [bind]; [|reflexivity].
  destruct (inverse Quu) as [Quu_inv|e]; cbn [bind]; [|reflexivity].
  destruct (mat_mul BtV (A (dynamics_ node))) as [BtVA|e];
    cbn [bind]; [|reflexivity].
  destruct (mat_add (transpose (P (cost_ node))) BtVA) as [Qux|e];
    cbn [bind]; reflexivity.
Qed.

End Conformity.

(** ** The hindsight solver's constructor *)

Section Constructor.

Import ilqr.

Lemma assign_split_middle (done : list HindsightBranch) (b : HindsightBranch)
  (rest : list HindsightBranch) (s : HindsightSplit) :
  assign_split (done ++ b :: rest) (length done) s = done ++ set_split b s :: rest.
Proof.
  induction done as [|d done IH]; simpl.
  - reflexivity.
  - now rewrite IH.
Qed.

Lemma constructor_loop_spec (post pre : list HindsightSplit) (acc : double) :
  constructor_loop (pre ++ post) (length post) (length pre) acc
    (map branch_of pre ++ repeat default_HindsightBranch (length post))
  = (fold_left Qcplus (map probability post) acc, map branch_of (pre ++ post)).
Proof.
  revert pre acc. induction post as [|s post IH]; intros pre acc; simpl.
  - now rewrite !app_nil_r.
  - rewrite app_nth2 by lia. rewrite Nat.sub_diag. simpl.
    replace (length pre) with (length (map branch_of pre)) at 2
      by apply length_map.
    rewrite assign_split_middle.
    specialize (IH (pre ++ [s]) (acc + probability s)).
    rewrite <- app_assoc in IH. simpl in IH.
    rewrite length_app in IH. simpl in IH.
    rewrite Nat.add_1_r in IH.
    rewrite map_app in IH. simpl in IH. rewrite <- app_assoc in IH. simpl in IH.
    exact IH.
Qed.

Lemma fold_left_sum (p : list double) (acc : double) :
  fold_left Qcplus p acc = acc + sum p.
Proof.
  revert acc. induction p as [|a p IH]; intros acc; simpl.
  - ring.
  - rewrite IH. unfold sum. simpl. ring.
Qed.

Lemma new_iLQRHindsightSolver_eq (splits : list HindsightSplit) :
  new_iLQRHindsightSolver splits =
  (IS_GREATER (Z.of_nat (length splits)) 0 ;;;
   IS_ALMOST_EQUAL (sum (map probability splits)) 1 tolerance ;;;
   Ok (mkiLQRHindsightSolver (map branch_of splits) None None None None)).
Proof.
  unfold new_iLQRHindsightSolver.
  pose proof (constructor_loop_spec splits [] 0) as H. simpl in H.
  rewrite H, fold_left_sum.
  replace (0 + sum (map probability splits)) with (sum (map probability splits))
    by ring.
  reflexivity.
Qed.

(** C4, as stated, fails: the prior (3/2, -1/2) has a negative probability,
    so it is not conserved, and the constructor accepts it; so does
    [add_nodes] of the tree solver for two children of these
    probabilities. *)
Lemma constructor_accepts_negative_probability :
  conserved (map probability signed_prior) = false /\
  new_iLQRHindsightSolver signed_prior =
  Ok (mkiLQRHindsightSolver (map branch_of signed_prior) None None None None) /\
  succeeds (grow 1 signed_heap) = true.
Proof. split; [|split]; vm_compute; reflexivity. Qed.

(** C4, amended: the constructor succeeds exactly when the probabilities
    of the splits sum to 1 within 10^-3 (which excludes the empty vector);
    the sign of the probabilities is not examined. *)
Theorem constructor_succeeds_iff_sum_within_tolerance
  (splits : list HindsightSplit) :
  succeeds (new_iLQRHindsightSolver splits) = true <->
  Qcabs (sum (map probability splits) - 1) <= tolerance.
Proof.
  rewrite new_iLQRHindsightSolver_eq. destruct splits as [|s splits].
  - simpl. split; [discriminate|].
    intros H. apply Qcleb_le in H. vm_compute in H. discriminate.
  - assert (Hsize : IS_GREATER (Z.of_nat (length (s :: splits))) 0 = Ok tt).
    { unfold IS_GREATER. simpl length. rewrite Nat2Z.inj_succ.
      destruct (Z.ltb_spec 0 (Z.succ (Z.of_nat (length splits)))) as [_|H];
        [reflexivity | lia]. }
    rewrite Hsize. cbn [bind]. unfold IS_ALMOST_EQUAL.
    rewrite <- Qcleb_le.
    destruct (Qcleb (Qcabs (sum (map probability (s :: splits)) - 1)) tolerance);
      simpl; split; congruence.
Qed.

(** C10: an empty splits vector fails at the size check, before the
    probabilities are summed; a non-empty one passes it, and the outcome is
    that of the check of the probability sum. *)
Theorem constructor_empty_fails_before_sum_check :
  new_iLQRHindsightSolver [] = Raise IS_GREATER_failed /\
  forall (s : HindsightSplit) (splits : list HindsightSplit),
    new_iLQRHindsightSolver (s :: splits) =
    (IS_ALMOST_EQUAL (sum (map probability (s :: splits))) 1 tolerance ;;;
     Ok (mkiLQRHindsightSolver (map branch_of (s :: splits)) None None None None)).
Proof.
  split.
  - reflexivity.
  - intros s splits. rewrite new_iLQRHindsightSolver_eq.
    unfold IS_GREATER. simpl length. rewrite Nat2Z.inj_succ.
    destruct (Z.ltb_spec 0 (Z.succ (Z.of_nat (length splits)))) as [_|H];
      [reflexivity | lia].
Qed.

End Constructor.

(** ** Probabilities of the plan nodes *)

Section Probabilities.

Import ilqr.

(** C6, as stated, fails within the precondition of the update: two
    branches of probabilities (1/2, 1/2) are conserved; the vector
    (3/2, -1/2) has their number of entries and sums to 1; after the
    per-node updates with it the probabilities are not conserved. *)
Lemma set_probabilities_breaks_conservation :
  conserved (map probability_ two_branches) = true /\
  length [dbl (3 # 2); dbl (-1 # 2)] = length two_branches /\
  Qcleb (Qcabs (sum [dbl (3 # 2); dbl (-1 # 2)] - 1)) tolerance = true /\
  conserved (map probability_
               (set_probabilities two_branches [dbl (3 # 2); dbl (-1 # 2)]))
  = false.
Proof. repeat split; vm_compute; reflexivity. Qed.

Lemma set_probability_same_but_probability (node : iLQRNode) (p : double) :
  same_but_probability node (set_probability node p).
Proof. unfold same_but_probability, set_probability. cbn. tauto. Qed.

(** C6, amended: [set_probability] stores the value it is given,
    unchecked, and changes nothing else: after the per-node updates of the
    branches with [p], the branch probabilities are [p], every other
    member of every node is as it was, and the probabilities are conserved
    exactly when the caller's [p] is. *)
Theorem set_probabilities_changes_the_probabilities_only
  (nodes : list iLQRNode) (p : list double) :
  length p = length nodes ->
  map probability_ (set_probabilities nodes p) = p /\
  Forall2 same_but_probability nodes (set_probabilities nodes p) /\
  conserved (map probability_ (set_probabilities nodes p)) = conserved p.
Proof.
  intros Hlen.
  assert (H : map probability_ (set_probabilities nodes p) = p /\
              Forall2 same_but_probability nodes (set_probabilities nodes p)).
  { revert p Hlen. induction nodes as [|node nodes IH]; intros [|p_i p] Hlen;
      cbn [length] in Hlen; try discriminate.
    - split; [reflexivity | constructor].
    - cbn [set_probabilities map]. injection Hlen as Hlen.
      destruct (IH p Hlen) as [Hp Hsame]. split.
      + now rewrite Hp.
      + constructor; [apply set_probability_same_but_probability | exact Hsame]. }
  destruct H as [Hp Hsame].
  split; [exact Hp | split; [exact Hsame | now rewrite Hp]].
Qed.

(** C6, amended, on two branches updated with (1/4, 3/4). *)
Lemma set_probabilities_changes_the_probabilities_only_witness :
  map probability_ (set_probabilities two_branches [dbl (1 # 4); dbl (3 # 4)])
  = [dbl (1 # 4); dbl (3 # 4)] /\
  Forall2 same_but_probability two_branches
          (set_probabilities two_branches [dbl (1 # 4); dbl (3 # 4)]) /\
  conserved (map probability_
               (set_probabilities two_branches [dbl (1 # 4); dbl (3 # 4)]))
  = conserved [dbl (1 # 4); dbl (3 # 4)].
Proof.
  apply (set_probabilities_changes_the_probabilities_only
           two_branches [dbl (1 # 4); dbl (3 # 4)]).
  reflexivity.
Defined.

End Probabilities.

(** ** The feedback law *)

Section FeedbackLaw.

Import ilqr.

Lemma vec_scale_1 (x : VectorXd) : vec_scale 1 x = x.
Proof.
  unfold vec_scale. induction x as [|a x IH]; simpl.
  - reflexivity.
  - rewrite IH. f_equal. ring.
Qed.

Lemma at_index_nth {T : Type} (l : list T) (t : Z) (d : T) :
  (0 <= t < Z.of_nat (length l))%Z ->
  at_index l t = Ok (nth (Z.to_nat t) l d).
Proof.
  intros [H0 HT]. unfold at_index.
  destruct (Z.ltb_spec t 0) as [H|_]; [lia|].
  destruct (nth_error l (Z.to_nat t)) as [x|] eqn:E.
  - now rewrite (nth_error_nth _ _ d E).
  - apply nth_error_None in E. lia.
Qed.

(** C7: within the horizon of the branch, the computed control is
    u^_t + alpha k_t + K_t (x - x^_t), and at alpha = 1 it is the regular
    feedback law. *)
Theorem compute_control_stepsize_feedback_law
  (this : iLQRHindsightSolver) (branch_num : nat) (branch : HindsightBranch)
  (T : nat) (xt : VectorXd) (t : Z) (alpha : double) :
  nth_error (branches_ this) branch_num = Some branch ->
  horizon branch T ->
  (0 <= t < Z.of_nat T)%Z ->
  0 < alpha <= 1 ->
  let K_t := nth (Z.to_nat t) (Ks branch) [] in
  let k_t := nth (Z.to_nat t) (ks branch) [] in
  let xhat_t := nth (Z.to_nat t) (xhat branch) [] in
  let uhat_t := nth (Z.to_nat t) (uhat branch) [] in
  compute_control_stepsize this (Z.of_nat branch_num) xt t alpha =
    Ok (vec_add (vec_add uhat_t (vec_scale alpha k_t))
                (mat_vec K_t (vec_sub xt xhat_t))) /\
  compute_control_stepsize this (Z.of_nat branch_num) xt t 1 =
    Ok (regular_feedback uhat_t k_t K_t xhat_t xt).
Proof.
  intros Hb (HK & Hk & Hx & Hu) Ht _ K_t k_t xhat_t uhat_t.
  assert (Hbranch : at_index (branches_ this) (Z.of_nat branch_num) = Ok branch).
  { unfold at_index. destruct (Z.ltb_spec (Z.of_nat branch_num) 0); [lia|].
    now rewrite Nat2Z.id, Hb. }
  unfold compute_control_stepsize. rewrite Hbranch. cbn [bind].
  rewrite (at_index_nth (Ks branch) t []) by (rewrite HK; exact Ht).
  rewrite (at_index_nth (ks branch) t []) by (rewrite Hk; exact Ht).
  rewrite (at_index_nth (xhat branch) t []) by (rewrite Hx; exact Ht).
  rewrite (at_index_nth (uhat branch) t []) by (rewrite Hu; exact Ht).
  cbn [bind]. unfold feedback, regular_feedback.
  split; [reflexivity|]. now rewrite vec_scale_1.
Qed.

(** C7 on a branch of one timestep: u^ = 5, k = 3, K = 2, x^ = 1, x = 4. *)
Lemma compute_control_stepsize_feedback_law_witness :
  compute_control_stepsize one_branch_solver 0 [dbl (4 # 1)] 0 (dbl (1 # 2)) =
    Ok [dbl (25 # 2)] /\
  compute_control_stepsize one_branch_solver 0 [dbl (4 # 1)] 0 1 =
    Ok [dbl (14 # 1)].
Proof.
  pose proof (compute_control_stepsize_feedback_law one_branch_solver 0
                one_step_branch 1 [dbl (4 # 1)] 0 (dbl (1 # 2))) as H.
  cbv zeta in H. change (Z.of_nat 0) with 0%Z in H.
  destruct H as [H1 H2].
  - reflexivity.
  - repeat split.
  - lia.
  - split; [reflexivity | discriminate].
  - split.
    + rewrite H1. vm_compute. repeat f_equal; apply Qc_is_canon; reflexivity.
    + rewrite H2. vm_compute. repeat f_equal; apply Qc_is_canon; reflexivity.
Defined.

End FeedbackLaw.

(** ** The control policy (section 4.3 of the spec against
      compute_control_policy) *)

(** C2, as stated, fails: with b_u = 0 and a successor with linear value
    G = (1 0), the feed-forward term of section 4.3 is -1, the computed one
    is 0; the successor's linear value shows in the last column of K. *)
Lemma feedforward_ignores_linear_value :
  feedforward_with_linear_value slider slider_successor slider_successor_G
    = Ok (int_matrix [ [-1] ]%Z) /\
  (node' <- compute_control_policy slider slider_successor ;; Ok (k_ node'))
    = Ok (int_matrix [ [0] ]%Z) /\
  (node' <- compute_control_policy slider slider_successor ;; Ok (K_ node'))
    = Ok (int_matrix [ [0; -1] ]%Z).
Proof. repeat split; by_computation. Qed.

(** C2, amended: K = -(R + B^T V B)^-1 (P^T + B^T V A) and
    k = -(R + B^T V B)^-1 b_u: the feed-forward term has no contribution of
    the successor's linear value.  Nothing but the gains is written. *)
Theorem compute_control_policy_gains (node node' : PlanNode) (Vt1 : MatrixXd) :
  compute_control_policy node Vt1 = Ok node' ->
  feedback_gain node Vt1 = Ok (K_ node') /\
  feedforward_gain node Vt1 = Ok (k_ node') /\
  node' = set_K_k_ node (K_ node') (k_ node').
Proof.
  intros H. unfold compute_control_policy in H. bind_inv H.
  injection H as <-.
  rename x into BtV, x0 into BtVB, x1 into Quu, x2 into Quu_inv,
         x3 into BtVA, x4 into Qux, x5 into K, x6 into k.
  assert (HQuu : Q_uu node Vt1 = Ok Quu).
  { unfold Q_uu. rewrite E. cbn [bind]. rewrite E0. exact E1. }
  assert (HQux : Q_ux node Vt1 = Ok Qux).
  { unfold Q_ux. rewrite E. cbn [bind]. rewrite E3. exact E4. }
  assert (Hsolve : forall rhs X,
             mat_mul (scale (- (1)) Quu_inv) rhs = Ok X ->
             minus_solve Quu rhs = Ok X).
  { intros rhs X HX. unfold minus_solve. rewrite E2. cbn [bind].
    destruct (mat_mul Quu_inv rhs) as [Y|e] eqn:EY.
    - apply mat_mul_scale_opp in EY. cbn [bind]. congruence.
    - unfold mat_mul in EY, HX. cbn [scale rows cols build] in HX.
      destruct (Nat.eqb (cols Quu_inv) (rows rhs)); discriminate. }
  repeat split.
  - unfold feedback_gain. rewrite HQuu, HQux. cbn [bind].
    apply Hsolve. exact E5.
  - unfold feedforward_gain. rewrite HQuu. cbn [bind].
    apply Hsolve. exact E6.
Qed.

(** C2, amended, on the node [slider]. *)
Lemma compute_control_policy_gains_witness :
  feedback_gain slider slider_successor = Ok (int_matrix [ [0; -1] ]%Z) /\
  feedforward_gain slider slider_successor = Ok (int_matrix [ [0] ]%Z).
Proof.
  assert (H : compute_control_policy slider slider_successor =
              Ok (set_K_k_ slider (int_matrix [ [0; -1] ]%Z) (int_matrix [ [0] ]%Z))).
  { by_computation. }
  destruct (compute_control_policy_gains _ _ _ H) as (HK & Hk & _).
  split; assumption.
Defined.

(** *** No factorization, no damping *)

(** C3, as stated, fails: the control Hessian of [concave] is -1, on which
    a Cholesky factorization fails, and the gains are computed all the same
    (K = (1 1), k = 2): no exception is raised. *)
Lemma gains_without_positive_definiteness :
  (Quu <- Q_uu concave slider_successor ;; Ok (Quu, cholesky_succeeds Quu))
    = Ok (int_matrix [ [-1] ]%Z, false) /\
  compute_control_policy concave slider_successor
    = Ok (set_K_k_ concave (int_matrix [ [1; 1] ]%Z) (int_matrix [ [2] ]%Z)).
Proof. split; by_computation. Qed.

(** C3, amended: the gains come from the explicit inverse of
    R + B^T V B, with no damping term and no factorization: for every
    conforming node whose control Hessian is invertible, positive definite
    or not, the gains are -(R + B^T V B)^-1 (P^T + B^T V A) and
    -(R + B^T V B)^-1 b_u, and they are returned; nothing is raised and
    nothing is retried. *)
Theorem compute_control_policy_inverts_any_invertible_hessian
  (node : PlanNode) (Vt1 Quu : MatrixXd) :
  conforming node Vt1 = true ->
  Q_uu node Vt1 = Ok Quu ->
  det Quu <> 0 ->
  exists Quu_inv Qux K k,
    inverse Quu = Ok Quu_inv /\
    Q_ux node Vt1 = Ok Qux /\
    mat_mul (scale (- (1)) Quu_inv) Qux = Ok K /\
    mat_mul (scale (- (1)) Quu_inv) (b_u (cost_ node)) = Ok k /\
    compute_control_policy node Vt1 = Ok (set_K_k_ node K k).
Proof.
  intros Hc HQuu Hdet.
  destruct (Q_uu_returns node Vt1 Hc) as (Quu' & HQuu' & Hr & Hcol).
  assert (Quu' = Quu) as -> by congruence.
  destruct (Q_ux_returns node Vt1 Hc) as (Qux & HQux & Hr' & Hcol').
  destruct (inverse_returns Quu) as (Quu_inv & Hinv & Hri & Hci);
    [lia | assumption |].
  destruct (mat_mul_returns (scale (- (1)) Quu_inv) Qux) as (K & HK & _);
    [cbn [rows cols scale build]; lia|].
  apply conforming_spec in Hc.
  destruct (mat_mul_returns (scale (- (1)) Quu_inv) (b_u (cost_ node)))
    as (k & Hk & _); [cbn [rows cols scale build]; lia|].
  exists Quu_inv, Qux, K, k.
  repeat split; try assumption.
  rewrite compute_control_policy_eq, HQuu. cbn [bind].
  rewrite Hinv. cbn [bind]. rewrite HQux. cbn [bind].
  rewrite HK. cbn [bind]. rewrite Hk. reflexivity.
Qed.

(** C3, amended, on the node [concave]: its control Hessian is -1, on
    which a Cholesky factorization fails. *)
Lemma compute_control_policy_inverts_any_invertible_hessian_witness :
  cholesky_succeeds (int_matrix [ [-1] ]%Z) = false /\
  exists Quu_inv Qux K k,
    inverse (int_matrix [ [-1] ]%Z) = Ok Quu_inv /\
    Q_ux concave slider_successor = Ok Qux /\
    mat_mul (scale (- (1)) Quu_inv) Qux = Ok K /\
    mat_mul (scale (- (1)) Quu_inv) (b_u (cost_ concave)) = Ok k /\
    compute_control_policy concave slider_successor = Ok (set_K_k_ concave K k).
Proof.
  split; [reflexivity|].
  apply (compute_control_policy_inverts_any_invertible_hessian
           concave slider_successor (int_matrix [ [-1] ]%Z)).
  - reflexivity.
  - by_computation.
  - intros E. apply (f_equal this) in E. vm_compute in E. discriminate.
Defined.

(** ** compute_value_matrix as written *)

Section ValueMatrix.

Lemma IS_EQUAL_Ok (a b : Z) (u : unit) : IS_EQUAL a b = Ok u -> a = b.
Proof.
  unfold IS_EQUAL. destruct (Z.eqb_spec a b); [auto | discriminate].
Qed.

(** The assertions of lines 143-148 hold together only when
    [state_dim_ + 1 = 1]: with any other state dimension
    [compute_value_matrix] raises, and what it returns is 1 x 1. *)
Lemma compute_value_matrix_shape (this : iLQRTree) (node : PlanNode)
  (Vt1 Vt : MatrixXd) :
  compute_value_matrix this node Vt1 = Ok Vt ->
  state_dim_ this = 0%Z /\ rows Vt = 1%nat /\ cols Vt = 1%nat.
Proof.
  intros H. unfold compute_value_matrix in H. cbv zeta in H. bind_inv H.
  injection H as <-.
  apply IS_EQUAL_Ok in E6, E7, E9, E10.
  apply block_add_assign_shape in E13, E14, E15.
  assert (state_dim_ this = 0%Z) by lia.
  repeat split; [assumption | lia | lia].
Qed.

Lemma compute_value_matrix_raises (this : iLQRTree) (node : PlanNode)
  (Vt1 : MatrixXd) :
  state_dim_ this <> 0%Z -> exists e, compute_value_matrix this node Vt1 = Raise e.
Proof.
  intros Hn. destruct (compute_value_matrix this node Vt1) as [Vt|e] eqn:E.
  - apply compute_value_matrix_shape in E. tauto.
  - eauto.
Qed.

End ValueMatrix.

(** ** The sweep as written *)

Section SweepAsWritten.

Variable this : iLQRTree.

Lemma Zero_shape (r c : Z) (M : MatrixXd) :
  Zero r c = Ok M -> Z.of_nat (rows M) = r /\ Z.of_nat (cols M) = c.
Proof.
  unfold Zero. destruct (Z.leb_spec 0 r) as [Hr|_]; [|discriminate].
  destruct (Z.leb_spec 0 c) as [Hc|_]; [|discriminate].
  cbn [andb]. intros HM. injection HM as <-. cbn [rows cols build]. lia.
Qed.

(** The accumulator is state_dim x state_dim, a backup is
    (state_dim + 1) x (state_dim + 1): the first [Vt += p * Vt_temp]
    cannot conform. *)
Lemma backup_children_raises (heap : Heap) (parent_plan_node : PlanNode)
  (child : TreeNodePtr) (children : list TreeNodePtr) (Vt : MatrixXd) :
  Z.of_nat (rows Vt) = state_dim_ this ->
  exists e, backup_children this heap parent_plan_node (child :: children) Vt
            = Raise e.
Proof.
  intros HVt. cbn [backup_children].
  destruct (tree_node this child) as [child_node|e]; cbn [bind]; [|eauto].
  destruct (plan_node heap (item child_node)) as [child_plan_node|e];
    cbn [bind]; [|eauto].
  destruct (compute_value_matrix this parent_plan_node (V_ child_plan_node))
    as [Vt_temp|e] eqn:E; cbn [bind]; [|eauto].
  apply compute_value_matrix_shape in E. destruct E as (Hn & Hr & _).
  unfold add_assign, mat_add, same_shape. cbn [scale rows cols build].
  destruct (Nat.eqb_spec (rows Vt) (rows Vt_temp)) as [Heq|_]; [lia|].
  cbn [andb bind]. eauto.
Qed.

Lemma push_back_at_no_empty_bucket (parent_map : ParentMap)
  (key : option TreeNodePtr) (child : TreeNodePtr) :
  no_empty_bucket parent_map ->
  no_empty_bucket (push_back_at parent_map key child) /\
  push_back_at parent_map key child <> [].
Proof.
  unfold no_empty_bucket.
  induction parent_map as [|[key' children] rest IH]; intros Hall;
    cbn [push_back_at].
  - split; [|discriminate]. constructor; [discriminate | constructor].
  - inversion Hall as [|? ? Hhd Htl]; subst.
    destruct (same_key key' key); (split; [|discriminate]).
    + constructor; [|assumption]. cbn [snd]. now destruct children.
    + constructor; [assumption | apply IH; assumption].
Qed.

Lemma hash_by_parent_no_empty_bucket (all_children : list TreeNodePtr) :
  forall parent_map parent_map' : ParentMap,
    no_empty_bucket parent_map ->
    (all_children <> [] \/ parent_map <> []) ->
    hash_by_parent this all_children parent_map = Ok parent_map' ->
    no_empty_bucket parent_map' /\ parent_map' <> [].
Proof.
  induction all_children as [|child rest IH];
    intros parent_map parent_map' Hne Hor H; cbn [hash_by_parent] in H.
  - injection H as <-. split; [assumption | tauto].
  - apply bind_Ok in H. destruct H as (child_node & _ & H).
    destruct (push_back_at_no_empty_bucket parent_map (parent child_node) child Hne)
      as [Hne' Hnil].
    apply (IH _ _ Hne' (or_intror Hnil) H).
Qed.

(** A sweep over a non-empty list of children raises, whatever the tree. *)
Lemma backup_to_parents_raises (heap : Heap) (all_children : list TreeNodePtr) :
  all_children <> [] ->
  exists e, backup_to_parents this heap all_children = Raise e.
Proof.
  intros Hne. unfold backup_to_parents.
  destruct (hash_by_parent this all_children []) as [parent_map|e] eqn:E;
    cbn [bind]; [|eauto].
  apply hash_by_parent_no_empty_bucket in E; [|constructor|auto].
  destruct E as [Hbuckets Hnil].
  destruct parent_map as [|[key children] rest]; [congruence|].
  inversion Hbuckets as [|? ? Hhd _]; subst. cbn [snd] in Hhd.
  destruct children as [|child children]; [congruence|].
  cbn [backup_parents].
  destruct (Zero (state_dim_ this) (state_dim_ this)) as [Vt|e] eqn:EZ;
    cbn [bind]; [|eauto].
  destruct key as [parent_ptr|]; cbn [bind]; [|eauto].
  destruct (tree_node this parent_ptr) as [parent_node|e]; cbn [bind]; [|eauto].
  destruct (plan_node heap (item parent_node)) as [parent_plan_node|e];
    cbn [bind]; [|eauto].
  apply Zero_shape in EZ.
  destruct (backup_children_raises heap parent_plan_node child children Vt)
    as [e ->]; [tauto|]. cbn [bind]. eauto.
Qed.

End SweepAsWritten.

(** The sweep over the two children of [fork1] raises. *)
Lemma backup_to_parents_raises_witness :
  exists e, backup_to_parents fork1 fork1_heap [1%nat; 2%nat] = Raise e.
Proof.
  apply (backup_to_parents_raises fork1 fork1_heap [1%nat; 2%nat]).
  discriminate.
Defined.

(** C1: on trees that the interface builds (the constructor, [add_root],
    then [add_nodes] with two children of probability 1/2 each) the sweep
    assigns no value to the parent.  With state dimension 1 it raises in
    the first [compute_value_matrix], at the assertion of line 148; with
    state dimension 0 that step returns and the first [Vt += p * Vt_temp]
    raises, the accumulator of line 110 being 0 x 0. *)
Theorem backup_to_parents_assigns_no_value :
  grow 1 fork1_heap = Ok (fork1, [1%nat; 2%nat]) /\
  backup_to_parents fork1 fork1_heap [1%nat; 2%nat] = Raise IS_EQUAL_failed /\
  grow 0 fork0_heap = Ok (fork0, [1%nat; 2%nat]) /\
  backup_to_parents fork0 fork0_heap [1%nat; 2%nat] = Raise eigen_assert_failed.
Proof. repeat split; by_computation. Qed.

(** ** bellman_tree_backup *)

(** C9: the tree and every plan node are the same after
    [bellman_tree_backup] as before: values, gains, expansions and
    probabilities. *)
Theorem bellman_tree_backup_changes_nothing (this : iLQRTree) (heap : Heap) :
  bellman_tree_backup this heap = (this, heap) /\
  forall ptr : nat,
    tree_node (fst (bellman_tree_backup this heap)) ptr = tree_node this ptr /\
    plan_node (snd (bellman_tree_backup this heap)) ptr = plan_node heap ptr.
Proof.
  assert (H : bellman_tree_backup this heap = (this, heap)).
  { unfold bellman_tree_backup. reflexivity. }
  split; [exact H|]. intros ptr. rewrite H. split; reflexivity.
Qed.

(** ** Symmetry of the value matrices *)


(** ** The line search and the damping (section 4.5 of the spec) *)

Section LineSearch.

Import ilqr.

Lemma Qcltb_lt (x y : double) : Qcltb x y = true <-> x < y.
Proof.
  unfold Qcltb. rewrite negb_true_iff. split.
  - intros H. apply Qcnot_le_lt. intros Hle. apply Qcleb_le in Hle. congruence.
  - intros H. destruct (Qcleb y x) eqn:E; [|reflexivity].
    apply Qcleb_le in E. now apply Qclt_not_le in H.
Qed.

Ltac to_Q :=
  unfold two, ten, alpha_min, mu_threshold, mu_initial in *;
  unfold Qclt, Qcle, Qcdiv, Qcmult, Qcplus, Qcinv, dbl in *;
  unfold Q2Qc in *; cbn [this] in *; repeat rewrite Qred_correct in *.

Lemma div_two (alpha : double) : alpha / two = alpha * dbl (1 # 2).
Proof. unfold Qcdiv. f_equal. Qed.

Lemma halved_11_below_alpha_min (alpha0 : double) :
  alpha0 <= 1 -> halved alpha0 11 < alpha_min.
Proof.
  intros H. cbn [halved]. rewrite !div_two. to_Q. lra.
Qed.

Section OneDamping.

Variable candidate : double -> double.

Variable Jbar : double.

Lemma forward_try_terminates (fuel : nat) :
  forall alpha : double,
    halved alpha (S fuel) < alpha_min ->
    exists r, forward_try candidate Jbar (S fuel) alpha = Some r.
Proof.
  induction fuel as [|fuel IH]; intros alpha H; cbn [forward_try].
  - destruct (Qcltb (candidate alpha) Jbar); [eauto|].
    destruct (Qcleb alpha_min (alpha / two)) eqn:E; [|eauto].
    apply Qcleb_le in E. cbn [halved] in H. now apply Qclt_not_le in H.
  - destruct (Qcltb (candidate alpha) Jbar); [eauto|].
    destruct (Qcleb alpha_min (alpha / two)); [|eauto].
    apply IH. exact H.
Qed.

Lemma forward_try_searched (fuel : nat) :
  forall (alpha0 : double) (r : search),
    forward_try candidate Jbar fuel alpha0 = Some r -> searched candidate Jbar alpha0 r.
Proof.
  induction fuel as [|fuel IH]; intros alpha0 r H; cbn [forward_try] in H;
    [discriminate|].
  destruct (Qcltb (candidate alpha0) Jbar) eqn:Eacc.
  - injection H as <-. apply Qcltb_lt in Eacc. exists 0%nat. cbn [halved].
    repeat split; [assumption | intros j Hj; lia | intros j Hj; lia].
  - assert (Hrej : ~ candidate alpha0 < Jbar).
    { intros Hlt. apply Qcltb_lt in Hlt. congruence. }
    destruct (Qcleb alpha_min (alpha0 / two)) eqn:Emin.
    + apply Qcleb_le in Emin. apply IH in H.
      destruct r as [alpha|]; cbn [searched] in *.
      * destruct H as (i & -> & Hacc & Hfirst & Habove). exists (S i).
        repeat split; [assumption | |].
        -- intros [|j] Hj; [exact Hrej | apply Hfirst; lia].
        -- intros [|[|j]] Hj; [lia | exact Emin | apply (Habove (S j)); lia].
      * destruct H as (i & Hall & Habove & Hlast). exists (S i).
        repeat split; [| | exact Hlast].
        -- intros [|j] Hj; [exact Hrej | apply Hall; lia].
        -- intros [|[|j]] Hj; [lia | exact Emin | apply (Habove (S j)); lia].
    + injection H as <-. exists 0%nat. repeat split.
      * intros j Hj. replace j with 0%nat by lia. exact Hrej.
      * intros j Hj. lia.
      * cbn [halved]. apply Qcnot_le_lt. intros Hle.
        apply Qcleb_le in Hle. congruence.
Qed.

End OneDamping.

Section Damping.

Variable candidate : double -> double -> double.

Variable Jbar : double.

Variable alpha0 : double.

Lemma damped_search_terminates (fuel : nat) :
  halved alpha0 tries < alpha_min ->
  forall mu : double,
    mu_threshold < Nat.iter (S fuel) escalate mu ->
    exists o, damped_search candidate Jbar alpha0 (S fuel) mu = Some o.
Proof.
  intros Halpha. induction fuel as [|fuel IH]; intros mu H;
    cbn [damped_search];
    destruct (forward_try_terminates (candidate mu) Jbar 10 alpha0 Halpha)
      as [[alpha|] Hr]; unfold tries; rewrite Hr; eauto.
  - cbn [Nat.iter nat_rect] in H. apply Qcltb_lt in H. rewrite H. eauto.
  - destruct (Qcltb mu_threshold (escalate mu)); [eauto|].
    apply IH. rewrite <- Nat.iter_succ_r. exact H.
Qed.

Lemma damped_search_settled (fuel : nat) :
  forall (mu : double) (o : outcome),
    damped_search candidate Jbar alpha0 fuel mu = Some o -> settled candidate Jbar alpha0 mu o.
Proof.
  induction fuel as [|fuel IH]; intros mu o H; cbn [damped_search] in H;
    [discriminate|].
  destruct (forward_try (candidate mu) Jbar tries alpha0) as [[alpha|]|] eqn:Er;
    [| |discriminate]; apply forward_try_searched in Er.
  - injection H as <-. exists 0%nat. cbn [Nat.iter nat_rect].
    repeat split; [exact Er | intros m Hm; lia].
  - destruct (Qcltb mu_threshold (escalate mu)) eqn:Eth.
    + injection H as <-. apply Qcltb_lt in Eth. exists 0%nat. cbn [Nat.iter nat_rect].
      repeat split; [exact Eth|]. intros m Hm. replace m with 0%nat by lia.
      exact Er.
    + apply IH in H. destruct o as [mu' alpha|mu']; cbn [settled] in *.
      * destruct H as (n & -> & Hacc & Hfail). exists (S n).
        rewrite Nat.iter_succ_r. repeat split; [exact Hacc|].
        intros [|m] Hm; [exact Er|]. rewrite Nat.iter_succ_r. apply Hfail. lia.
      * destruct H as (n & -> & Hth & Hfail). exists (S n).
        rewrite (Nat.iter_succ_r (S n)). repeat split; [exact Hth|].
        intros [|m] Hm; [exact Er|]. rewrite Nat.iter_succ_r. apply Hfail. lia.
Qed.

End Damping.

Lemma escalate_positive (mu : double) : 0 < mu -> escalate mu = ten * mu.
Proof.
  intros H. unfold escalate. destruct (Qceqb mu 0) eqn:E; [|reflexivity].
  apply Qceqb_eq in E. subst. discriminate H.
Qed.

Lemma ten_times_positive (mu : double) : 0 < mu -> 0 < ten * mu.
Proof. intros H. to_Q. lra. Qed.

Lemma iter_escalate_positive (mu : double) (n : nat) :
  0 < mu ->
  0 < Nat.iter n escalate mu /\
  Nat.iter n escalate mu = dbl (inject_Z (10 ^ Z.of_nat n)) * mu.
Proof.
  intros Hmu. induction n as [|n [IHpos IHeq]].
  - split; [exact Hmu|]. cbn [Nat.iter nat_rect].
    change (dbl (inject_Z (10 ^ Z.of_nat 0))) with 1. ring.
  - cbn [Nat.iter nat_rect].
    change (nat_rect (fun _ => double) mu (fun _ => escalate) n)
      with (Nat.iter n escalate mu).
    rewrite (escalate_positive _ IHpos). split.
    + now apply ten_times_positive.
    + rewrite IHeq, Qcmult_assoc. f_equal.
      apply Qc_is_canon. unfold ten, dbl, Qcmult, Q2Qc. cbn [this].
      rewrite !Qred_correct, Nat2Z.inj_succ, Z.pow_succ_r by lia.
      rewrite inject_Z_mult. reflexivity.
Qed.

Lemma escalations_enough (mu : double) :
  0 <= mu ->
  exists fuel : nat,
    escalations mu = S fuel /\
    mu_threshold < Nat.iter (S fuel) escalate mu.
Proof.
  intros Hmu. unfold escalations. destruct (Qceqb mu 0) eqn:E.
  - apply Qceqb_eq in E. subst. exists 13%nat. split; [reflexivity|].
    apply Qcltb_lt. vm_compute. reflexivity.
  - assert (Hpos : 0 < mu).
    { destruct (Qcle_lt_or_eq _ _ Hmu) as [H|H]; [exact H|].
      symmetry in H. apply Qceqb_eq in H. congruence. }
    set (s := Z.log2_up (Z.pos (Qden mu))).
    exists (6 + Z.to_nat s)%nat. split; [reflexivity|].
    destruct (iter_escalate_positive mu (S (6 + Z.to_nat s)) Hpos) as [_ ->].
    assert (Hs : (0 <= s)%Z) by apply Z.log2_up_nonneg.
    assert (Hden : (Z.pos (Qden mu) <= 2 ^ s)%Z).
    { apply (Z.log2_log2_up_spec (Z.pos (Qden mu))). lia. }
    assert (Hpow : (2 ^ s <= 10 ^ s)%Z) by (apply Z.pow_le_mono_l; lia).
    replace (Z.of_nat (S (6 + Z.to_nat s))) with (7 + s)%Z by lia.
    rewrite Z.pow_add_r by lia.
    unfold Qclt in Hpos |- *. unfold mu_threshold, dbl, Qcmult, Q2Qc in *.
    cbn [this] in *. rewrite !Qred_correct.
    destruct mu as [[n d] Hcanon]. cbn [this Qden] in *.
    unfold Qlt in Hpos. cbn in Hpos.
    unfold Qlt, Qmult, inject_Z. cbn [Qnum Qden].
    rewrite Pos.mul_1_l. change (10 ^ 7)%Z with 10000000%Z.
    clear Hmu E Hcanon. generalize dependent (10 ^ s)%Z. intros X HX. nia.
Qed.

(** C8: from a step in (0, 1] and a damping that is not negative, the
    search returns, whatever the costs: it accepts the first member of the
    halving sequence whose cost is below the current cost, at the damping
    reached by the escalations before which the line search failed, or it
    ends in StuckAtLocalMin with a damping above 10^6. *)
Theorem line_search_terminates (candidate : double -> double -> double)
  (Jbar alpha0 mu : double) :
  0 < alpha0 <= 1 ->
  0 <= mu ->
  exists o : outcome,
    line_search candidate Jbar alpha0 mu = Some o /\
    settled candidate Jbar alpha0 mu o /\
    match o with
    | Accept mu' alpha =>
        candidate mu' alpha < Jbar /\
        (alpha_min <= alpha0 -> alpha_min <= alpha)
    | StuckAtLocalMin mu' => mu_threshold < mu'
    end.
Proof.
  intros [_ Halpha] Hmu.
  destruct (escalations_enough mu Hmu) as (fuel & Hfuel & Hth).
  destruct (damped_search_terminates candidate Jbar alpha0 fuel
              (halved_11_below_alpha_min alpha0 Halpha) mu Hth) as [o Ho].
  exists o. unfold line_search. rewrite Hfuel. split; [exact Ho|].
  apply damped_search_settled in Ho. split; [exact Ho|].
  destruct o as [mu' alpha|mu']; cbn [settled] in Ho.
  - destruct Ho as (n & _ & (i & -> & Hacc & _ & Habove) & _).
    split; [exact Hacc|]. intros Hmin.
    destruct i as [|i]; [exact Hmin | apply Habove; lia].
  - destruct Ho as (n & _ & Hth' & _). exact Hth'.
Qed.

(** C8 on [quarter_cost], from step 1 and damping 0. *)
Lemma line_search_terminates_witness :
  exists o : outcome,
    line_search quarter_cost 1 1 0 = Some o /\
    settled quarter_cost 1 1 0 o /\
    match o with
    | Accept mu' alpha =>
        quarter_cost mu' alpha < 1 /\ (alpha_min <= 1 -> alpha_min <= alpha)
    | StuckAtLocalMin mu' => mu_threshold < mu'
    end.
Proof.
  apply (line_search_terminates quarter_cost 1 1 0).
  - split; [reflexivity | discriminate].
  - discriminate.
Defined.

End LineSearch.

(** * Part IV.  Further properties of the sources *)

(** ** to_string of the policy types *)

(** The name of a policy tells the policy: an enumerator never gets the
    name of another value, and the message for an unrecognized value is
    returned exactly outside the four enumerators. *)
Theorem to_string_tells_the_policy (p q : PolicyTypes) :
  (to_string p = unrecognized <-> (p < 0 \/ 3 < p)%Z) /\
  (to_string p = to_string q -> to_string p = unrecognized \/ p = q).
Proof.
  unfold to_string, HINDSIGHT, TRUE_ILQR, ARGMAX_ILQR, PROB_WEIGHTED_CONTROL.
  split.
  - destruct (Z.eqb_spec p 0); [split; [discriminate | lia]|].
    destruct (Z.eqb_spec p 1); [split; [discriminate | lia]|].
    destruct (Z.eqb_spec p 2); [split; [discriminate | lia]|].
    destruct (Z.eqb_spec p 3); [split; [discriminate | lia]|].
    split; [lia | reflexivity].
  - destruct (Z.eqb_spec p 0), (Z.eqb_spec p 1), (Z.eqb_spec p 2),
      (Z.eqb_spec p 3), (Z.eqb_spec q 0), (Z.eqb_spec q 1), (Z.eqb_spec q 2),
      (Z.eqb_spec q 3); intros H; try discriminate H; try (right; lia);
      left; reflexivity.
Qed.

(** ** make_plan_node and add_root from a nominal point *)

Section MakePlanNode.

Context {C : PlanNodeClass}.

Lemma IS_EQUAL_cases (a b : Z) :
  (a = b /\ IS_EQUAL a b = Ok tt) \/
  (a <> b /\ IS_EQUAL a b = Raise IS_EQUAL_failed).
Proof. unfold IS_EQUAL. destruct (Z.eqb_spec a b); auto. Qed.

Lemma plan_node_app (heap : Heap) (more : list PlanNode) (ptr : PlanNodePtr)
  (node : PlanNode) :
  plan_node heap ptr = Ok node -> plan_node (heap ++ more) ptr = Ok node.
Proof.
  unfold plan_node. destruct (nth_error heap ptr) as [x|] eqn:E; [|discriminate].
  intros H. rewrite nth_error_app1 by (apply nth_error_Some; congruence).
  now rewrite E.
Qed.

Lemma make_plan_node_Ok (this : iLQRTree) (heap heap' : Heap)
  (x_star u_star : list double) (dynamics_func : DynamicsFunc)
  (cost_func : CostFunc) (probability : double) (ptr : PlanNodePtr) :
  make_plan_node this heap x_star u_star dynamics_func cost_func probability
  = Ok (ptr, heap') ->
  Z.of_nat (length x_star) = state_dim_ this /\
  Z.of_nat (length u_star) = control_dim_ this /\
  ptr = length heap /\ exists node, heap' = heap ++ [node].
Proof.
  unfold make_plan_node. intros H.
  destruct (IS_EQUAL_cases (Z.of_nat (length x_star)) (state_dim_ this))
    as [[Hx Ex]|[Hx Ex]]; rewrite Ex in H; cbn [bind] in H; [|discriminate].
  destruct (IS_EQUAL_cases (Z.of_nat (length u_star)) (control_dim_ this))
    as [[Hu Eu]|[Hu Eu]]; rewrite Eu in H; cbn [bind] in H; [|discriminate].
  apply bind_Ok in H. destruct H as (n1 & _ & H).
  apply bind_Ok in H. destruct H as (n2 & _ & H).
  unfold make_shared in H. injection H as <- <-. eauto.
Qed.

(** A plan node is made only for a nominal state of [state_dim_]
    coefficients and a nominal control of [control_dim_] coefficients:
    with any other size the call raises the assertion failure, before the
    node is constructed or a closure is called. *)
Theorem make_plan_node_rejects_other_sizes (this : iLQRTree) (heap : Heap)
  (x_star u_star : list double) (dynamics_func : DynamicsFunc)
  (cost_func : CostFunc) (probability : double) :
  Z.of_nat (length x_star) <> state_dim_ this \/
  Z.of_nat (length u_star) <> control_dim_ this ->
  make_plan_node this heap x_star u_star dynamics_func cost_func probability
  = Raise IS_EQUAL_failed.
Proof.
  intros H. unfold make_plan_node.
  destruct (IS_EQUAL_cases (Z.of_nat (length x_star)) (state_dim_ this))
    as [[Hx ->]|[Hx ->]]; cbn [bind]; [|reflexivity].
  destruct (IS_EQUAL_cases (Z.of_nat (length u_star)) (control_dim_ this))
    as [[Hu ->]|[Hu ->]]; cbn [bind]; [tauto | reflexivity].
Qed.

(** When [make_plan_node] returns, the sizes are the dimensions of the
    tree, the plan node is at an address that held none, and the plan
    nodes that existed are as they were. *)
Theorem make_plan_node_allocates (this : iLQRTree) (heap heap' : Heap)
  (x_star u_star : list double) (dynamics_func : DynamicsFunc)
  (cost_func : CostFunc) (probability : double) (ptr : PlanNodePtr) :
  make_plan_node this heap x_star u_star dynamics_func cost_func probability
  = Ok (ptr, heap') ->
  Z.of_nat (length x_star) = state_dim_ this /\
  Z.of_nat (length u_star) = control_dim_ this /\
  plan_node heap ptr = Raise null_pointer /\
  (exists node, plan_node heap' ptr = Ok node) /\
  (forall old node, plan_node heap old = Ok node ->
                    plan_node heap' old = Ok node).
Proof.
  intros H. apply make_plan_node_Ok in H.
  destruct H as (Hx & Hu & -> & node & ->).
  repeat split; try assumption.
  - unfold plan_node.
    destruct (nth_error heap (length heap)) eqn:E; [|reflexivity].
    assert (length heap < length heap)%nat
      by (apply nth_error_Some; congruence). lia.
  - exists node. unfold plan_node.
    rewrite nth_error_app2, Nat.sub_diag by lia. reflexivity.
  - intros old node'. apply plan_node_app.
Qed.

(** The root made from a nominal point: the sizes are checked as for any
    plan node; the tree is then the root alone, whatever it held before,
    and the root holds the new plan node. *)
Theorem add_root_at_makes_a_one_node_tree (this this' : iLQRTree)
  (heap heap' : Heap) (x_star u_star : list double)
  (dynamics_func : DynamicsFunc) (cost_func : CostFunc) (root : TreeNodePtr) :
  add_root_at this heap x_star u_star dynamics_func cost_func
  = Ok (this', root, heap') ->
  Z.of_nat (length x_star) = state_dim_ this /\
  Z.of_nat (length u_star) = control_dim_ this /\
  tree_ this' = [mkTreeNode None (length heap)] /\
  tree_node this' root = Ok (mkTreeNode None (length heap)) /\
  (exists node, plan_node heap' (length heap) = Ok node) /\
  state_dim_ this' = state_dim_ this /\ control_dim_ this' = control_dim_ this.
Proof.
  unfold add_root_at. intros H.
  apply bind_Ok in H. destruct H as ([ptr heap1] & Hmade & H).
  cbn [fst snd add_root] in H. injection H as <- <- <-.
  apply make_plan_node_Ok in Hmade.
  destruct Hmade as (Hx & Hu & -> & node & ->).
  cbn [tree_ state_dim_ control_dim_]. repeat split; try assumption.
  exists node. unfold plan_node.
  rewrite nth_error_app2, Nat.sub_diag by lia. reflexivity.
Qed.

End MakePlanNode.

(** A nominal state of two coefficients for the tree [fork1] of state
    dimension 1. *)
Lemma make_plan_node_rejects_other_sizes_witness :
  make_plan_node (C := plain) fork1 fork1_heap [0; 0] [0] tt tt half
  = Raise IS_EQUAL_failed.
Proof.
  apply (make_plan_node_rejects_other_sizes (C := plain)
           fork1 fork1_heap [0; 0] [0] tt tt half).
  left. discriminate.
Defined.

(** A fourth plan node for the tree [fork1]. *)
Lemma make_plan_node_allocates_witness :
  Z.of_nat (length [half]) = state_dim_ fork1 /\
  Z.of_nat (length [half]) = control_dim_ fork1 /\
  plan_node fork1_heap 3%nat = Raise null_pointer /\
  (exists node, plan_node (fork1_heap ++ [plain_node half]) 3%nat = Ok node) /\
  (forall old node, plan_node fork1_heap old = Ok node ->
                    plan_node (fork1_heap ++ [plain_node half]) old = Ok node).
Proof.
  apply (make_plan_node_allocates (C := plain) fork1 fork1_heap
           (fork1_heap ++ [plain_node half]) [half] [half] tt tt half 3%nat).
  reflexivity.
Defined.

(** A new root for the tree [fork1]. *)
Lemma add_root_at_makes_a_one_node_tree_witness :
  Z.of_nat (length [half]) = state_dim_ fork1 /\
  Z.of_nat (length [half]) = control_dim_ fork1 /\
  tree_ (fst (add_root fork1 3%nat)) = [mkTreeNode None 3%nat] /\
  tree_node (fst (add_root fork1 3%nat)) 0%nat = Ok (mkTreeNode None 3%nat) /\
  (exists node, plan_node (fork1_heap ++ [plain_node 1]) 3%nat = Ok node) /\
  state_dim_ (fst (add_root fork1 3%nat)) = state_dim_ fork1 /\
  control_dim_ (fst (add_root fork1 3%nat)) = control_dim_ fork1.
Proof.
  apply (add_root_at_makes_a_one_node_tree (C := plain)
           fork1 (fst (add_root fork1 3%nat))
           fork1_heap (fork1_heap ++ [plain_node 1]) [half] [half] tt tt 0%nat).
  reflexivity.
Defined.

(** ** add_nodes: what is accepted, and what is added *)

Section AddNodes.

Lemma accumulate_probability_Ok (heap : Heap) (plan_nodes : list PlanNodePtr) :
  forall a s : double,
    accumulate_probability heap plan_nodes a = Ok s <->
    exists nodes,
      Forall2 (fun ptr node => plan_node heap ptr = Ok node) plan_nodes nodes /\
      s = a + sum (map probability_ nodes).
Proof.
  induction plan_nodes as [|ptr rest IH]; intros a s; cbn [accumulate_probability].
  - split.
    + intros H. injection H as <-. exists []. split; [constructor|].
      unfold sum. cbn. ring.
    + intros (nodes & Hall & ->). inversion Hall; subst.
      unfold sum. cbn. f_equal. ring.
  - split.
    + intros H. apply bind_Ok in H. destruct H as (node & Hnode & H).
      apply IH in H. destruct H as (nodes & Hall & ->).
      exists (node :: nodes). split; [constructor; assumption|].
      unfold sum. cbn. ring.
    + intros (nodes & Hall & ->).
      inversion Hall as [|? node ? nodes' Hnode Hrest]; subst.
      rewrite Hnode. cbn [bind]. apply IH. exists nodes'.
      split; [assumption|]. unfold sum. cbn. ring.
Qed.

Lemma add_children_eq (plan_nodes : list PlanNodePtr) :
  forall (tree : Tree) (parent : TreeNodePtr) (children : list TreeNodePtr),
    add_children tree parent plan_nodes children
    = (tree ++ map (mkTreeNode (Some parent)) plan_nodes,
       children ++ seq (length tree) (length plan_nodes)).
Proof.
  induction plan_nodes as [|plan_node rest IH]; intros tree parent children;
    cbn [add_children add_child map length seq].
  - now rewrite !app_nil_r.
  - rewrite IH, length_app, <- !app_assoc. cbn [length app].
    now rewrite Nat.add_1_r.
Qed.

Lemma add_nodes_Ok (this this' : iLQRTree) (heap : Heap)
  (plan_nodes : list PlanNodePtr) (parent : TreeNodePtr)
  (children : list TreeNodePtr) :
  add_nodes this heap plan_nodes parent = Ok (this', children) ->
  this' = mkiLQRTree (state_dim_ this) (control_dim_ this) (ZeroValueMatrix_ this)
            (tree_ this ++ map (mkTreeNode (Some parent)) plan_nodes) /\
  children = seq (length (tree_ this)) (length plan_nodes).
Proof.
  unfold add_nodes. intros H.
  apply bind_Ok in H. destruct H as (s & _ & H).
  apply bind_Ok in H. destruct H as (u & _ & H).
  rewrite add_children_eq in H. injection H as <- <-. auto.
Qed.

Lemma tree_node_added (this : iLQRTree) (tree : Tree) (parent : TreeNodePtr)
  (plan_nodes : list PlanNodePtr) (i : nat) (plan : PlanNodePtr) :
  tree_ this = tree ++ map (mkTreeNode (Some parent)) plan_nodes ->
  nth_error plan_nodes i = Some plan ->
  tree_node this (length tree + i)%nat = Ok (mkTreeNode (Some parent) plan).
Proof.
  intros Htree Hi. unfold tree_node. rewrite Htree.
  rewrite nth_error_app2 by lia.
  replace (length tree + i - length tree)%nat with i by lia.
  now rewrite nth_error_map, Hi.
Qed.

(** [add_nodes] returns exactly when every plan node resolves and the
    probabilities sum to 1 within [EPS]; nothing else is examined (neither
    the sign of a probability nor the parent).  In particular an empty
    vector of plan nodes is refused. *)
Theorem add_nodes_succeeds_iff_sum_within_EPS (this : iLQRTree) (heap : Heap)
  (plan_nodes : list PlanNodePtr) (parent : TreeNodePtr) :
  (succeeds (add_nodes this heap plan_nodes parent) = true <->
   exists nodes,
     Forall2 (fun ptr node => plan_node heap ptr = Ok node) plan_nodes nodes /\
     Qcabs (sum (map probability_ nodes) - 1) <= EPS) /\
  add_nodes this heap [] parent = Raise IS_ALMOST_EQUAL_failed.
Proof.
  split; [|reflexivity].
  unfold add_nodes. rewrite add_children_eq.
  destruct (accumulate_probability heap plan_nodes 0) as [s|e] eqn:E; cbn [bind].
  - apply accumulate_probability_Ok in E. destruct E as (nodes & Hall & ->).
    replace (0 + sum (map probability_ nodes)) with (sum (map probability_ nodes))
      by ring.
    unfold IS_ALMOST_EQUAL.
    destruct (Qcleb (Qcabs (sum (map probability_ nodes) - 1)) EPS) eqn:Hle;
      cbn [bind succeeds].
    + split; [|reflexivity]. intros _. exists nodes. split; [assumption|].
      now apply Qcleb_le.
    + split; [discriminate|]. intros (nodes' & Hall' & Hle').
      assert (nodes' = nodes) as ->.
      { clear - Hall Hall'. revert nodes' Hall'.
        induction Hall as [|ptr node rest nodes Hn _ IH]; intros nodes' Hall';
          inversion Hall'; subst; [reflexivity|].
        f_equal; [congruence | now apply IH]. }
      apply Qcleb_le in Hle'. congruence.
  - cbn [succeeds]. split; [discriminate|]. intros (nodes & Hall & _).
    assert (accumulate_probability heap plan_nodes 0
            = Ok (0 + sum (map probability_ nodes)))
      by (apply accumulate_probability_Ok; eauto).
    congruence.
Qed.

(** When [add_nodes] returns, there is one new tree node per plan node, in
    the order of the plan nodes: the i-th child is a node the tree did not
    have, its parent is [parent] and its item the i-th plan node; no child
    is returned twice, the nodes the tree had are as they were, and so are
    the dimensions. *)
Theorem add_nodes_children (this this' : iLQRTree) (heap : Heap)
  (plan_nodes : list PlanNodePtr) (parent : TreeNodePtr)
  (children : list TreeNodePtr) :
  add_nodes this heap plan_nodes parent = Ok (this', children) ->
  length children = length plan_nodes /\
  NoDup children /\
  (forall i plan, nth_error plan_nodes i = Some plan ->
     exists child, nth_error children i = Some child /\
                   tree_node this child = Raise null_pointer /\
                   tree_node this' child = Ok (mkTreeNode (Some parent) plan)) /\
  (forall old node, tree_node this old = Ok node -> tree_node this' old = Ok node) /\
  length (tree_ this') = (length (tree_ this) + length plan_nodes)%nat /\
  state_dim_ this' = state_dim_ this /\ control_dim_ this' = control_dim_ this.
Proof.
  intros H. apply add_nodes_Ok in H. destruct H as [-> ->].
  cbn [tree_ state_dim_ control_dim_].
  repeat split.
  - apply length_seq.
  - apply seq_NoDup.
  - intros i plan Hi.
    assert (i < length plan_nodes)%nat by (apply nth_error_Some; congruence).
    exists (length (tree_ this) + i)%nat. repeat split.
    + rewrite nth_error_seq.
      destruct (Nat.ltb_spec i (length plan_nodes)); [reflexivity | lia].
    + unfold tree_node.
      destruct (nth_error (tree_ this) (length (tree_ this) + i)%nat) eqn:E;
        [|reflexivity].
      assert (length (tree_ this) + i < length (tree_ this))%nat
        by (apply nth_error_Some; congruence). lia.
    + now apply (tree_node_added _ (tree_ this) parent plan_nodes).
  - intros old node. unfold tree_node. cbn [tree_].
    destruct (nth_error (tree_ this) old) as [n|] eqn:E; [|discriminate].
    intros Hn. rewrite nth_error_app1 by (apply nth_error_Some; congruence).
    now rewrite E.
  - now rewrite length_app, length_map.
Qed.

End AddNodes.

(** The tree solver grown over [signed_heap]: two children of probabilities
    3/2 and -1/2. *)
Lemma add_nodes_children_witness :
  exists this' children,
    add_nodes (fst (add_root fork1 0%nat)) signed_heap [1%nat; 2%nat] 0%nat
    = Ok (this', children) /\
    length children = 2%nat /\ NoDup children /\
    tree_node this' 2%nat = Ok (mkTreeNode (Some 0%nat) 2%nat).
Proof.
  destruct (add_nodes (fst (add_root fork1 0%nat)) signed_heap [1%nat; 2%nat] 0%nat)
    as [[this' children]|e] eqn:E; [|vm_compute in E; discriminate].
  exists this', children. split; [reflexivity|].
  destruct (add_nodes_children _ _ _ _ _ _ E) as (Hlen & Hnd & Hnew & _).
  repeat split; try assumption.
  destruct (Hnew 1%nat 2%nat eq_refl) as (child & Hc & _ & Ht).
  apply add_nodes_Ok in E. destruct E as [_ ->]. cbn in Hc.
  injection Hc as <-. exact Ht.
Defined.

(** ** The first loop of backup_to_parents: the children by parent *)

Section ParentMapFacts.

Variable this : iLQRTree.

Lemma same_key_eq (a b : option TreeNodePtr) : same_key a b = true <-> a = b.
Proof.
  destruct a as [x|], b as [y|]; cbn [same_key];
    try (split; [discriminate | congruence]); [|tauto].
  rewrite Nat.eqb_eq. split; congruence.
Qed.

Lemma same_key_neq (a b : option TreeNodePtr) : same_key a b = false <-> a <> b.
Proof.
  rewrite <- same_key_eq. destruct (same_key a b); split; congruence.
Qed.

Lemma push_back_at_new (parent_map : ParentMap) (key : option TreeNodePtr)
  (child : TreeNodePtr) :
  ~ In key (map fst parent_map) ->
  push_back_at parent_map key child = parent_map ++ [(key, [child])].
Proof.
  induction parent_map as [|[key' children] rest IH]; intros Hnew;
    cbn [push_back_at app]; [reflexivity|].
  cbn [map fst In] in Hnew.
  destruct (same_key key' key) eqn:E.
  - apply same_key_eq in E. tauto.
  - now rewrite IH by tauto.
Qed.

Lemma push_back_at_old (before after : ParentMap) (key : option TreeNodePtr)
  (children : list TreeNodePtr) (child : TreeNodePtr) :
  ~ In key (map fst before) ->
  push_back_at (before ++ (key, children) :: after) key child
  = before ++ (key, children ++ [child]) :: after.
Proof.
  induction before as [|[key' children'] rest IH]; intros Hnew;
    cbn [push_back_at app].
  - assert (same_key key key = true) as -> by now apply same_key_eq.
    reflexivity.
  - cbn [map fst In] in Hnew.
    destruct (same_key key' key) eqn:E.
    + apply same_key_eq in E. tauto.
    + now rewrite IH by tauto.
Qed.

Lemma filter_snoc (key : option TreeNodePtr) (seen : list TreeNodePtr)
  (child : TreeNodePtr) (child_node : TreeNode) :
  tree_node this child = Ok child_node ->
  filter (has_parent this key) (seen ++ [child])
  = filter (has_parent this key) seen
    ++ (if same_key (parent child_node) key then [child] else []).
Proof.
  intros Hnode. rewrite filter_app. cbn [filter]. unfold has_parent at 2.
  rewrite Hnode. now destruct (same_key (parent child_node) key).
Qed.

Lemma grouped_push_back_at (seen : list TreeNodePtr) (parent_map : ParentMap)
  (child : TreeNodePtr) (child_node : TreeNode) :
  grouped this seen parent_map ->
  tree_node this child = Ok child_node ->
  grouped this (seen ++ [child]) (push_back_at parent_map (parent child_node) child).
Proof.
  intros (Hkeys & Hbuckets & Hseen) Hnode.
  set (key := parent child_node).
  assert (Hdec : In key (map fst parent_map) \/ ~ In key (map fst parent_map)).
  { assert (Heq : forall a b : option TreeNodePtr, {a = b} + {a <> b})
      by (decide equality; apply Nat.eq_dec).
    destruct (in_dec Heq key (map fst parent_map)); auto. }
  destruct Hdec as [Hin|Hnew].
  - apply in_map_iff in Hin. destruct Hin as ([key' children] & Hfst & Hin).
    cbn [fst] in Hfst. subst key'.
    apply in_split in Hin. destruct Hin as (before & after & ->).
    rewrite map_app in Hkeys. cbn [map fst] in Hkeys.
    pose proof (NoDup_remove_2 _ _ _ Hkeys) as Hfresh.
    rewrite in_app_iff in Hfresh.
    rewrite push_back_at_old by tauto.
    split; [|split].
    + rewrite map_app. exact Hkeys.
    + intros k cs Hk. rewrite (filter_snoc k seen child child_node Hnode).
      fold key.
      apply in_app_iff in Hk. cbn [In] in Hk.
      assert (Hother : In (k, cs) (before ++ after) ->
                       cs <> [] /\
                       cs = filter (has_parent this k) seen
                            ++ (if same_key key k then [child] else [])).
      { intros Hba.
        assert (k <> key).
        { intros ->. apply Hfresh. apply in_app_iff in Hba.
          destruct Hba as [Hb|Ha]; [left|right];
            apply in_map_iff; exists (key, cs); auto. }
        assert (same_key key k = false) as -> by (apply same_key_neq; congruence).
        rewrite app_nil_r. apply Hbuckets.
        apply in_app_iff in Hba. apply in_app_iff. cbn [In]. tauto. }
      destruct Hk as [Hk|[Hk|Hk]].
      * apply Hother. apply in_app_iff. tauto.
      * injection Hk as <- <-.
        assert (same_key key key = true) as -> by now apply same_key_eq.
        destruct (Hbuckets key children) as [_ <-].
        { apply in_app_iff. cbn [In]. tauto. }
        split; [now destruct children | reflexivity].
      * apply Hother. apply in_app_iff. tauto.
    + intros c Hc. apply in_app_iff in Hc. cbn [In] in Hc.
      rewrite map_app. cbn [map fst].
      destruct Hc as [Hc|[<-|[]]].
      * destruct (Hseen c Hc) as (n & Hn & Hkey). exists n. split; [assumption|].
        now rewrite map_app in Hkey.
      * exists child_node. split; [assumption|].
        apply in_app_iff. cbn [In]. tauto.
  - rewrite push_back_at_new by assumption.
    split; [|split].
    + rewrite map_app. cbn [map fst].
      apply NoDup_app; [assumption | repeat constructor; tauto |].
      intros k Hk [<-|[]]. tauto.
    + intros k cs Hk. rewrite (filter_snoc k seen child child_node Hnode).
      fold key. apply in_app_iff in Hk. cbn [In] in Hk.
      destruct Hk as [Hk|[Hk|[]]].
      * assert (k <> key).
        { intros ->. apply Hnew. apply in_map_iff. exists (key, cs). auto. }
        assert (same_key key k = false) as -> by (apply same_key_neq; congruence).
        rewrite app_nil_r. now apply Hbuckets.
      * injection Hk as <- <-.
        assert (same_key key key = true) as -> by now apply same_key_eq.
        split; [discriminate|].
        assert (filter (has_parent this key) seen = []) as ->; [|reflexivity].
        destruct (filter (has_parent this key) seen) as [|c l] eqn:E;
          [reflexivity|].
        assert (Hc : In c (filter (has_parent this key) seen))
          by (rewrite E; now left).
        apply filter_In in Hc. destruct Hc as [Hc Hpar].
        destruct (Hseen c Hc) as (n & Hn & Hkey).
        unfold has_parent in Hpar. rewrite Hn in Hpar.
        apply same_key_eq in Hpar. congruence.
    + intros c Hc. apply in_app_iff in Hc. cbn [In] in Hc.
      rewrite map_app. cbn [map fst].
      destruct Hc as [Hc|[<-|[]]].
      * destruct (Hseen c Hc) as (n & Hn & Hkey). exists n. split; [assumption|].
        apply in_app_iff. tauto.
      * exists child_node. split; [assumption|].
        apply in_app_iff. cbn [In]. tauto.
Qed.

Lemma hash_by_parent_grouped (rest : list TreeNodePtr) :
  forall (seen : list TreeNodePtr) (parent_map parent_map' : ParentMap),
    grouped this seen parent_map ->
    hash_by_parent this rest parent_map = Ok parent_map' ->
    grouped this (seen ++ rest) parent_map'.
Proof.
  induction rest as [|child rest IH]; intros seen parent_map parent_map' Hg H;
    cbn [hash_by_parent] in H.
  - injection H as <-. now rewrite app_nil_r.
  - apply bind_Ok in H. destruct H as (child_node & Hnode & H).
    replace (seen ++ child :: rest) with ((seen ++ [child]) ++ rest)
      by now rewrite <- app_assoc.
    apply (IH _ _ _ (grouped_push_back_at _ _ _ _ Hg Hnode) H).
Qed.

(** The first loop of [backup_to_parents] groups the children by parent:
    no parent has two buckets, no bucket is empty, the bucket of a parent
    holds the children of that parent in the order of [all_children], and
    every child is in the bucket of its parent. *)
Theorem hash_by_parent_groups_by_parent (all_children : list TreeNodePtr)
  (parent_map : ParentMap) :
  hash_by_parent this all_children [] = Ok parent_map ->
  NoDup (map fst parent_map) /\
  (forall key children, In (key, children) parent_map ->
     children <> [] /\
     children = filter (has_parent this key) all_children) /\
  (forall child, In child all_children ->
     exists child_node children,
       tree_node this child = Ok child_node /\
       In (parent child_node, children) parent_map /\ In child children).
Proof.
  intros H. apply (hash_by_parent_grouped all_children [] []) in H.
  2:{ split; [constructor | split]; intros; contradiction. }
  cbn [app] in H. destruct H as (Hkeys & Hbuckets & Hseen).
  split; [assumption | split; [assumption|]].
  intros child Hc. destruct (Hseen child Hc) as (child_node & Hnode & Hkey).
  apply in_map_iff in Hkey. destruct Hkey as ([key children] & Hfst & Hin).
  cbn [fst] in Hfst. subst key.
  exists child_node, children. split; [assumption | split; [assumption|]].
  destruct (Hbuckets _ _ Hin) as [_ ->].
  apply filter_In. split; [assumption|].
  unfold has_parent. rewrite Hnode. now apply same_key_eq.
Qed.

Lemma hash_by_parent_one_parent (parent_ptr : TreeNodePtr)
  (children : list TreeNodePtr) :
  Forall (fun child => exists child_node,
            tree_node this child = Ok child_node /\
            parent child_node = Some parent_ptr) children ->
  forall (before : list TreeNodePtr) (rest : ParentMap),
    hash_by_parent this children ((Some parent_ptr, before) :: rest)
    = Ok ((Some parent_ptr, before ++ children) :: rest).
Proof.
  induction 1 as [|child children (child_node & Hnode & Hpar) _ IH];
    intros before rest; cbn [hash_by_parent].
  - now rewrite app_nil_r.
  - rewrite Hnode. cbn [bind push_back_at]. rewrite Hpar.
    cbn [same_key]. rewrite Nat.eqb_refl, IH, <- app_assoc. reflexivity.
Qed.

End ParentMapFacts.

(** The children of [fork1], hashed: one bucket, of the root. *)
Lemma hash_by_parent_groups_by_parent_witness :
  NoDup (map fst [(Some 0%nat, [1%nat; 2%nat])]) /\
  (forall key children, In (key, children) [(Some 0%nat, [1%nat; 2%nat])] ->
     children <> [] /\
     children = filter (has_parent fork1 key) [1%nat; 2%nat]) /\
  (forall child, In child [1%nat; 2%nat] ->
     exists child_node children,
       tree_node fork1 child = Ok child_node /\
       In (parent child_node, children) [(Some 0%nat, [1%nat; 2%nat])] /\
       In child children).
Proof.
  apply (hash_by_parent_groups_by_parent fork1 [1%nat; 2%nat]
           [(Some 0%nat, [1%nat; 2%nat])]).
  reflexivity.
Defined.

(** The children that one call of [add_nodes] returns are hashed to one
    bucket, that of the parent, in the order in which they were returned. *)
Theorem add_nodes_children_share_one_bucket (this this' : iLQRTree) (heap : Heap)
  (plan_nodes : list PlanNodePtr) (parent_ptr : TreeNodePtr)
  (children : list TreeNodePtr) :
  add_nodes this heap plan_nodes parent_ptr = Ok (this', children) ->
  hash_by_parent this' children [] = Ok [(Some parent_ptr, children)].
Proof.
  intros H.
  destruct plan_nodes as [|plan rest]; [discriminate|].
  apply add_nodes_Ok in H. destruct H as [Hthis ->].
  assert (Hall : Forall (fun child => exists child_node,
                           tree_node this' child = Ok child_node /\
                           parent child_node = Some parent_ptr)
                        (seq (length (tree_ this)) (length (plan :: rest)))).
  { apply Forall_forall. intros child Hc. apply in_seq in Hc.
    destruct (nth_error (plan :: rest) (child - length (tree_ this)))
      as [p|] eqn:E.
    - exists (mkTreeNode (Some parent_ptr) p). split; [|reflexivity].
      replace child
        with (length (tree_ this) + (child - length (tree_ this)))%nat at 1
        by lia.
      apply (tree_node_added this' (tree_ this) parent_ptr (plan :: rest));
        [now rewrite Hthis | assumption].
    - apply nth_error_None in E. lia. }
  clear Hthis. cbn [length seq] in Hall |- *.
  inversion Hall as [|? ? (child_node & Hnode & Hpar) Hrest]; subst.
  cbn [hash_by_parent]. rewrite Hnode. cbn [bind push_back_at]. rewrite Hpar.
  now rewrite (hash_by_parent_one_parent this' parent_ptr _ Hrest).
Qed.

(** On the tree grown over [signed_heap]. *)
Lemma add_nodes_children_share_one_bucket_witness :
  exists this' children,
    add_nodes (fst (add_root fork1 0%nat)) signed_heap [1%nat; 2%nat] 0%nat
    = Ok (this', children) /\
    hash_by_parent this' children [] = Ok [(Some 0%nat, children)].
Proof.
  destruct (add_nodes (fst (add_root fork1 0%nat)) signed_heap [1%nat; 2%nat] 0%nat)
    as [[this' children]|e] eqn:E; [|vm_compute in E; discriminate].
  exists this', children. split; [reflexivity|].
  apply (add_nodes_children_share_one_bucket _ _ _ _ _ _ E).
Defined.

(** ** The shapes compute_control_policy and compute_value_matrix need *)

Section Shapes.

(** For a column [b_u] and a control Hessian that is invertible whenever
    it can be formed, [compute_control_policy] returns exactly when the
    shapes conform; the state and control dimensions of the tree are not
    consulted.  The feedback gain then has one row per control and one
    column per column of [A], and the feed-forward gain is a column with
    one row per control. *)
Theorem compute_control_policy_returns_iff_conforming
  (node : PlanNode) (Vt1 : MatrixXd) :
  cols (b_u (cost_ node)) = 1%nat ->
  (forall Quu, Q_uu node Vt1 = Ok Quu -> det Quu <> 0) ->
  (succeeds (compute_control_policy node Vt1) = true <->
   conforming node Vt1 = true) /\
  (forall node', compute_control_policy node Vt1 = Ok node' ->
     rows (K_ node') = cols (B (dynamics_ node)) /\
     cols (K_ node') = cols (A (dynamics_ node)) /\
     rows (k_ node') = cols (B (dynamics_ node)) /\
     cols (k_ node') = 1%nat).
Proof.
  intros Hcol Hdet.
  assert (Hshapes : forall node',
            compute_control_policy node Vt1 = Ok node' ->
            conforming node Vt1 = true /\
            rows (K_ node') = cols (B (dynamics_ node)) /\
            cols (K_ node') = cols (A (dynamics_ node)) /\
            rows (k_ node') = cols (B (dynamics_ node)) /\
            cols (k_ node') = 1%nat).
  { intros node' H. unfold compute_control_policy in H. cbv zeta in H.
    bind_inv H. injection H as <-. cbn [K_ k_ set_K_k_].
    apply mat_mul_Ok in E, E0, E3, E5, E6. apply mat_add_Ok in E1, E4.
    apply inverse_Ok in E2.
    cbn [rows cols transpose scale build] in *.
    split.
    - apply conforming_spec. repeat split; lia.
    - repeat split; lia. }
  split; [|intros node' H; apply (Hshapes node' H)].
  split.
  - destruct (compute_control_policy node Vt1) as [node'|e] eqn:E;
      [|discriminate].
    intros _. apply (Hshapes node' eq_refl).
  - intros Hc.
    destruct (Q_uu_returns node Vt1 Hc) as (Quu & HQuu & Hr & Hcl).
    destruct (Q_ux_returns node Vt1 Hc) as (Qux & HQux & Hr' & Hcl').
    destruct (inverse_returns Quu) as (Quu_inv & Hinv & Hri & Hci);
      [lia | apply (Hdet Quu HQuu) |].
    destruct (mat_mul_returns (scale (- (1)) Quu_inv) Qux) as (K & HK & _);
      [cbn [rows cols scale build]; lia|].
    apply conforming_spec in Hc.
    destruct (mat_mul_returns (scale (- (1)) Quu_inv) (b_u (cost_ node)))
      as (k & Hk & _); [cbn [rows cols scale build]; lia|].
    rewrite compute_control_policy_eq, HQuu. cbn [bind].
    rewrite Hinv. cbn [bind]. rewrite HQux. cbn [bind].
    rewrite HK. cbn [bind]. rewrite Hk. reflexivity.
Qed.

Lemma on_extended_state_spec (this : iLQRTree) (node : PlanNode) (Vt1 : MatrixXd) :
  on_extended_state this node Vt1 = true ->
  let n := Z.to_nat (state_dim_ this + 1) in
  rows (A (dynamics_ node)) = n /\ cols (A (dynamics_ node)) = n /\
  rows (B (dynamics_ node)) = n /\ rows Vt1 = n /\ cols Vt1 = n /\
  rows (Q (cost_ node)) = n /\ cols (Q (cost_ node)) = n /\
  rows (P (cost_ node)) = n /\
  cols (P (cost_ node)) = cols (B (dynamics_ node)) /\
  rows (K_ node) = cols (B (dynamics_ node)) /\ cols (K_ node) = n /\
  rows (k_ node) = cols (B (dynamics_ node)).
Proof.
  unfold on_extended_state. cbv zeta. rewrite !andb_true_iff, !Nat.eqb_eq. tauto.
Qed.

Lemma IS_EQUAL_refl (a : Z) : IS_EQUAL a a = Ok tt.
Proof. unfold IS_EQUAL. now rewrite Z.eqb_refl. Qed.

(** With a state of one coefficient or more and a plan node whose matrices
    conform on the extended state, [compute_value_matrix] forms the
    (state_dim_ + 1) x (state_dim_ + 1) quadratic term and the linear term,
    and then fails its own assertion that the quadratic term has one
    column (line 148): no Eigen operation fails before it, and nothing
    after it is reached. *)
Theorem compute_value_matrix_fails_its_assertion (this : iLQRTree)
  (node : PlanNode) (Vt1 : MatrixXd) :
  (0 < state_dim_ this)%Z ->
  on_extended_state this node Vt1 = true ->
  compute_value_matrix this node Vt1 = Raise IS_EQUAL_failed.
Proof.
  intros Hdim Hs. apply on_extended_state_spec in Hs. cbv zeta in Hs.
  destruct Hs as (HA & HA' & HB & HV & HV' & HQ & HQ' & HP & HP' & HK & HK' & Hk).
  unfold compute_value_matrix. cbv zeta.
  destruct (mat_mul_returns (transpose (A (dynamics_ node))) Vt1)
    as (AtV & -> & ? & ?); [cbn [rows cols transpose build]; lia|].
  cbn [bind]. cbn [rows cols transpose build] in *.
  destruct (mat_mul_returns AtV (B (dynamics_ node))) as (AtVB & -> & ? & ?);
    [lia|].
  cbn [bind].
  destruct (mat_add_returns (P (cost_ node)) AtVB) as (cross & -> & ? & ?);
    [lia ..|].
  cbn [bind].
  destruct (mat_mul_returns AtV (A (dynamics_ node))) as (AtVA & -> & ? & ?);
    [lia|].
  cbn [bind].
  destruct (mat_add_returns (Q (cost_ node)) AtVA) as (Q_AtVA & -> & ? & ?);
    [lia ..|].
  cbn [bind].
  destruct (mat_mul_returns cross (K_ node)) as (crossK & -> & ? & ?); [lia|].
  cbn [bind].
  destruct (mat_add_returns Q_AtVA crossK) as (quadratic_term & -> & Hr & Hc);
    [lia ..|].
  cbn [bind].
  assert (Er : Z.of_nat (rows quadratic_term) = (state_dim_ this + 1)%Z) by lia.
  assert (Ec : Z.of_nat (cols quadratic_term) = (state_dim_ this + 1)%Z) by lia.
  rewrite Er, Ec, !IS_EQUAL_refl. cbn [bind].
  destruct (mat_mul_returns cross (k_ node)) as (linear_term & -> & ? & ?);
    [lia|].
  cbn [bind]. unfold IS_EQUAL.
  destruct (Z.eqb_spec (state_dim_ this + 1) 1) as [E1|_]; [lia | reflexivity].
Qed.

End Shapes.

(** On the node [concave], whose control Hessian is -1. *)
Lemma compute_control_policy_returns_iff_conforming_witness :
  (succeeds (compute_control_policy concave slider_successor) = true <->
   conforming concave slider_successor = true) /\
  (forall node', compute_control_policy concave slider_successor = Ok node' ->
     rows (K_ node') = cols (B (dynamics_ concave)) /\
     cols (K_ node') = cols (A (dynamics_ concave)) /\
     rows (k_ node') = cols (B (dynamics_ concave)) /\
     cols (k_ node') = 1%nat).
Proof.
  apply (compute_control_policy_returns_iff_conforming concave slider_successor).
  - reflexivity.
  - intros Quu H.
    assert (HQ : Q_uu concave slider_successor = Ok (int_matrix [ [-1] ]%Z))
      by by_computation.
    rewrite HQ in H. injection H as <-.
    intros E. apply (f_equal this) in E. vm_compute in E. discriminate.
Defined.

(** On the node [slider], in the tree [fork1] of state dimension 1. *)
Lemma compute_value_matrix_fails_its_assertion_witness :
  compute_value_matrix fork1 slider slider_successor = Raise IS_EQUAL_failed.
Proof.
  apply (compute_value_matrix_fails_its_assertion fork1 slider slider_successor).
  - reflexivity.
  - reflexivity.
Defined.

(** ** The gains solve the linear system of the control Hessian *)

Section NormalEquations.

Lemma det_1 (M : MatrixXd) :
  rows M = 1%nat -> cols M = 1%nat -> det M = coeff M 0 0.
Proof.
  intros Hr Hc. unfold det. rewrite Hr. cbn [det_upto]. rewrite Hc.
  cbn [sum_upto sign Nat.even]. ring.
Qed.

Lemma det_minor_2 (M : MatrixXd) (a l : nat) :
  rows M = 2%nat -> cols M = 2%nat ->
  det (minor M a l) = coeff M (skip a 0) (skip l 0).
Proof.
  intros Hr Hc. rewrite det_1 by (unfold minor; cbn [rows cols build]; lia).
  unfold minor. rewrite Hr, Hc. cbn [pred]. now rewrite coeff_build by lia.
Qed.

Lemma det_2 (M : MatrixXd) :
  rows M = 2%nat -> cols M = 2%nat ->
  det M = coeff M 0 0 * coeff M 1 1 - coeff M 0 1 * coeff M 1 0.
Proof.
  intros Hr Hc. unfold det. rewrite Hr. cbn [det_upto]. rewrite Hc.
  cbn [sum_upto minor cols build]. rewrite Hc. cbn [Nat.pred sum_upto].
  unfold minor. rewrite Hr, Hc. cbn [Nat.pred]. rewrite !coeff_build by lia.
  cbn [skip Nat.ltb Nat.leb sign Nat.even]. ring.
Qed.

Lemma det_minor_1 (M : MatrixXd) (a l : nat) :
  rows M = 1%nat -> det (minor M a l) = 1.
Proof. intros Hr. unfold det, minor. cbn [rows build]. now rewrite Hr. Qed.

(** For a matrix of two rows at most, [-1.0 * M.inverse() * rhs] solves
    [M * X = -rhs]. *)
Lemma inverse_solves (M Minv rhs X : MatrixXd) :
  (rows M <= 2)%nat ->
  inverse M = Ok Minv ->
  mat_mul (scale (- (1)) Minv) rhs = Ok X ->
  mat_mul M X = Ok (mat_opp rhs).
Proof.
  intros Hsmall Hinv HX.
  unfold inverse in Hinv.
  destruct (Nat.eqb_spec (rows M) (cols M)) as [Hsq|_]; [|discriminate].
  destruct (Qceqb (det M) 0) eqn:Hdet; [discriminate|].
  assert (Hd : det M <> 0) by (intros Hd; apply Qceqb_eq in Hd; congruence).
  injection Hinv as <-.
  unfold mat_mul in HX. cbn [rows cols scale build] in HX.
  destruct (Nat.eqb_spec (cols M) (rows rhs)) as [Hrhs|_]; [|discriminate].
  injection HX as <-.
  unfold mat_mul. cbn [rows cols build]. rewrite <- Hsq, Nat.eqb_refl.
  f_equal. unfold mat_opp. rewrite <- Hrhs, <- Hsq.
  apply build_ext. intros i j Hi Hj.
  transitivity
    (sum_upto (rows M)
       (fun l => coeff M i l *
                 sum_upto (rows M)
                   (fun a => - (sign (l + a) * det (minor M a l) / det M)
                             * coeff rhs a j))).
  { apply sum_upto_ext. intros l Hl. f_equal.
    rewrite coeff_build by assumption.
    apply sum_upto_ext. intros a Ha. f_equal.
    unfold scale. cbn [rows cols build].
    rewrite !coeff_build by assumption. ring. }
  destruct (rows M) as [|[|[|n]]] eqn:Hr; [lia | | | lia].
  - assert (i = 0%nat) as -> by lia.
    cbn [sum_upto Nat.add].
    rewrite !det_minor_1 by assumption.
    rewrite det_1 in Hd |- * by congruence.
    cbn [sign Nat.even]. field. exact Hd.
  - cbn [sum_upto Nat.add].
    rewrite !det_minor_2 by congruence.
    rewrite det_2 in Hd |- * by congruence.
    cbn [sign Nat.even skip Nat.ltb Nat.leb].
    destruct i as [|[|i]]; [| |lia]; field; exact Hd.
Qed.

(** With two controls at most, the gains that [compute_control_policy]
    writes solve the linear systems of the control Hessian:
    (R + B^T V B) K = -(P^T + B^T V A) and (R + B^T V B) k = -b_u. *)
Theorem compute_control_policy_solves (node node' : PlanNode) (Vt1 : MatrixXd) :
  (cols (B (dynamics_ node)) <= 2)%nat ->
  compute_control_policy node Vt1 = Ok node' ->
  exists Quu Qux,
    Q_uu node Vt1 = Ok Quu /\ Q_ux node Vt1 = Ok Qux /\
    mat_mul Quu (K_ node') = Ok (mat_opp Qux) /\
    mat_mul Quu (k_ node') = Ok (mat_opp (b_u (cost_ node))).
Proof.
  intros Hsmall H. unfold compute_control_policy in H. cbv zeta in H.
  bind_inv H. injection H as <-. cbn [K_ k_ set_K_k_].
  rename x into BtV, x0 into BtVB, x1 into Quu, x2 into Quu_inv,
         x3 into BtVA, x4 into Qux, x5 into K, x6 into k.
  exists Quu, Qux.
  assert (HQuu : Q_uu node Vt1 = Ok Quu).
  { unfold Q_uu. rewrite E. cbn [bind]. rewrite E0. exact E1. }
  assert (HQux : Q_ux node Vt1 = Ok Qux).
  { unfold Q_ux. rewrite E. cbn [bind]. rewrite E3. exact E4. }
  assert (Hrows : (rows Quu <= 2)%nat).
  { apply mat_mul_Ok in E, E0. apply mat_add_Ok in E1.
    cbn [rows cols transpose build] in *. lia. }
  repeat split; try assumption.
  - apply (inverse_solves Quu Quu_inv Qux K Hrows E2 E5).
  - apply (inverse_solves Quu Quu_inv (b_u (cost_ node)) k Hrows E2 E6).
Qed.

End NormalEquations.

(** On the node [concave], whose control Hessian is -1: K = (1 1), k = 2. *)
Lemma compute_control_policy_solves_witness :
  exists Quu Qux,
    Q_uu concave slider_successor = Ok Quu /\
    Q_ux concave slider_successor = Ok Qux /\
    mat_mul Quu (int_matrix [ [1; 1] ]%Z) = Ok (mat_opp Qux) /\
    mat_mul Quu (int_matrix [ [2] ]%Z) = Ok (mat_opp (b_u (cost_ concave))).
Proof.
  apply (compute_control_policy_solves concave
           (set_K_k_ concave (int_matrix [ [1; 1] ]%Z) (int_matrix [ [2] ]%Z))
           slider_successor).
  - cbn. lia.
  - by_computation.
Defined.
